(** * PDF page to word-processor document: a model of [assesment.py]

    The program reads the first page of a PDF with pdfplumber, writes the
    text lines that are not part of a table as paragraphs, rebuilds every
    detected table as a docx table and saves the document.

    Conventions of the embedding.
    - Page coordinates are Python floats.  The program is written over
      any number type with the operations it uses ([PyNum]); the instances
      are IEEE doubles, which is what the interpreter computes with, and
      exact rationals, where the comparisons are the mathematical ones.
    - Python [str] is [string]; characters are code points below 256.
    - Python dicts with a fixed set of keys are records; the only optional
      key is a word's ["fontname"], read with [.get].
    - Lengths of python-docx are integers in EMU ([Z]); the width of a
      table cell is kept in whole twips.
    - An exception is a value of [exn]; code that can raise returns
      [result].  The document under construction is local to [main], so a
      raised exception discards it.  The exceptions are those of the
      program's own indexing and of the extraction.
    - Cell strings are text that the library takes and gives back as it
      is: it raises [ValueError] on a control character that XML cannot
      hold and reads a carriage return back as a line break, and neither
      is modelled.  [doc.save] is taken to succeed. *)

From stdpp Require Import base list strings.
From Stdlib Require Import QArith Qabs ZArith Lia Floats.

Close Scope Q_scope.
Set Warnings "-inexact-float".

(** ** Exceptions and the error monad *)

Inductive index_site :=
  | TableCell    (* table[r][c] *)
  | DocCells     (* word_table.rows[r].cells[i] *)
  | ColWidths    (* col_widths[c] *)
  | Pages.       (* pdf.pages[0] *)

Inductive exn :=
  | IndexError (site : index_site)
  | ExtractionError.

Inductive result (A : Type) :=
  | Ok (a : A)
  | Raise (e : exn).
Arguments Ok {A} a.
Arguments Raise {A} e.

#[global] Instance result_ret : MRet result := λ A a, Ok a.
#[global] Instance result_bind : MBind result := λ A B k m,
  match m with
  | Ok a => k a
  | Raise e => Raise e
  end.

Definition lookup_or {A} (e : exn) (o : option A) : result A :=
  match o with
  | Some a => Ok a
  | None => Raise e
  end.

(** A Python [for] loop whose body may raise: the first exception stops
    the loop. *)
Fixpoint for_each {S A} (body : S → A → result S) (s : S) (l : list A)
  : result S :=
  match l with
  | [] => Ok s
  | a :: l' => s' ← body s a; for_each body s' l'
  end.

(** Python list indexing [l[i]]: a negative index counts from the end. *)
Definition py_get {A} (l : list A) (i : Z) : option A :=
  if (0 <=? i)%Z then l !! Z.to_nat i
  else if (0 <=? Z.of_nat (length l) + i)%Z
       then l !! Z.to_nat (Z.of_nat (length l) + i)
       else None.

(** ** Python string operations *)

(** [needle in hay] *)
Fixpoint py_in (needle hay : string) : bool :=
  if String.prefix needle hay then true
  else match hay with
       | EmptyString => false
       | String _ rest => py_in needle rest
       end.

(** [str.isspace] on code points below 256. *)
Definition is_space (a : Ascii.ascii) : bool :=
  let n := Ascii.nat_of_ascii a in
  ((9 <=? n) && (n <=? 13) || (28 <=? n) && (n <=? 32)
   || (n =? 133) || (n =? 160))%nat.

Fixpoint lstrip (s : string) : string :=
  match s with
  | EmptyString => EmptyString
  | String a rest => if is_space a then lstrip rest else s
  end.

Definition rstrip (s : string) : string :=
  String.rev (lstrip (String.rev s)).

Definition strip (s : string) : string := lstrip (rstrip s).

(** ** Python floats

    The program uses its coordinates through [+], [-], [/], [abs], [<],
    [<=] and [>=] only, and mixes them with the integer literals 2, 3 and
    20, which Python converts to floats.  [a >= b] is read as [b <= a].
    The functions of the program are written once, over any type with
    these operations, and are run on two of them: doubles, as in the
    interpreter, and exact rationals. *)

Class PyNum (F : Type) := {
  num_add : F → F → F;
  num_sub : F → F → F;
  num_div : F → F → F;
  num_abs : F → F;
  num_ltb : F → F → bool;
  num_leb : F → F → bool;
  num_of_Z : Z → F
}.

#[global] Hint Mode PyNum ! : typeclass_instances.

Declare Scope num_scope.
Delimit Scope num_scope with num.
Notation "a + b" := (num_add a b) : num_scope.
Notation "a - b" := (num_sub a b) : num_scope.
Notation "a / b" := (num_div a b) : num_scope.
Notation "a <? b" := (num_ltb a b) : num_scope.
Notation "a <=? b" := (num_leb a b) : num_scope.

(** Exact rationals. *)
Definition Qltb (a b : Q) : bool := negb (Qle_bool b a).

#[global] Instance Q_num : PyNum Q :=
  {| num_add := Qplus; num_sub := Qminus; num_div := Qdiv; num_abs := Qabs;
     num_ltb := Qltb; num_leb := Qle_bool; num_of_Z := inject_Z |}.

(** IEEE 754 binary64, the Python [float]: every operation rounds to the
    nearest double, ties to even.  An integer literal becomes the double
    of the same value, exactly so below 2^53. *)
Definition float_of_Z (z : Z) : float :=
  if (z <? 0)%Z then PrimFloat.opp (PrimFloat.of_uint63 (Uint63.of_Z (- z)))
  else PrimFloat.of_uint63 (Uint63.of_Z z).

#[global] Instance float_num : PyNum float :=
  {| num_add := PrimFloat.add; num_sub := PrimFloat.sub;
     num_div := PrimFloat.div; num_abs := PrimFloat.abs;
     num_ltb := PrimFloat.ltb; num_leb := PrimFloat.leb;
     num_of_Z := float_of_Z |}.

(** ** What the extractor reports

    Words, lines, bounding boxes and pages carry coordinates of type [F];
    [word], [line], [bbox] and [page] are the ones with rational
    coordinates. *)

Record gword (F : Type) := mkWord {
  w_text : string;
  w_top : F;
  w_bottom : F;
  w_x0 : F;
  w_x1 : F;
  w_fontname : option string;   (* read with .get, default: empty string *)
  w_size : F
}.

Record gline (F : Type) := mkLine {
  l_text : string;
  l_top : F;
  l_bottom : F;
  l_x0 : F;
  l_x1 : F
}.

(** (x0, top, x1, bottom) *)
Definition gbbox (F : Type) : Type := F * F * F * F.

Record gpage (F : Type) := mkPage { page_width : F; page_height : F }.

(** A table as pdfplumber extracts it: rows of optional cell strings. *)
Abbreviation grid := (list (list (option string))).

(** A table found on a page: its bounding box and its extracted grid. *)
Record gfound_table (F : Type) := mkFoundTable {
  ft_bbox : gbbox F;
  ft_extract : grid
}.

(** A pdfplumber page, reduced to the results of the calls made on it. *)
Record gpdf_page (F : Type) := mkPdfPage {
  pg_page : gpage F;
  extract_words : list (gword F);
  extract_text_lines : list (gline F);
  find_tables : list (gfound_table F)
}.

Record gtop_bottom (F : Type) := mkTopBottom { tb_top : F; tb_bottom : F }.

Arguments mkWord {F} w_text%_string (w_top w_bottom w_x0 w_x1)%_Q
  w_fontname w_size%_Q.
Arguments w_text {F}. Arguments w_top {F}. Arguments w_bottom {F}.
Arguments w_x0 {F}. Arguments w_x1 {F}. Arguments w_fontname {F}.
Arguments w_size {F}.
Arguments mkLine {F} l_text%_string (l_top l_bottom l_x0 l_x1)%_Q.
Arguments l_text {F}. Arguments l_top {F}. Arguments l_bottom {F}.
Arguments l_x0 {F}. Arguments l_x1 {F}.
Arguments mkPage {F} (page_width page_height)%_Q.
Arguments page_width {F}. Arguments page_height {F}.
Arguments mkFoundTable {F} ft_bbox%_Q ft_extract.
Arguments ft_bbox {F}. Arguments ft_extract {F}.
Arguments mkPdfPage {F}.
Arguments pg_page {F}. Arguments extract_words {F}.
Arguments extract_text_lines {F}. Arguments find_tables {F}.
Arguments mkTopBottom {F} (tb_top tb_bottom)%_Q.
Arguments tb_top {F}. Arguments tb_bottom {F}.

(** The coordinates as exact rationals. *)
Abbreviation word := (gword Q).
Abbreviation line := (gline Q).
Abbreviation bbox := (gbbox Q).
Abbreviation page := (gpage Q).
Abbreviation found_table := (gfound_table Q).
Abbreviation pdf_page := (gpdf_page Q).

(** [is_line_inside_table] only reads the keys "top" and "bottom" of its
    first argument; [main] calls it on a line and on a two-key dict built
    from a word. *)
Class VExtent (F A : Type) := { top_of : A → F; bottom_of : A → F }.

#[global] Instance line_extent {F} : VExtent F (gline F) :=
  {| top_of := l_top; bottom_of := l_bottom |}.
#[global] Instance top_bottom_extent {F} : VExtent F (gtop_bottom F) :=
  {| top_of := tb_top; bottom_of := tb_bottom |}.

(** ** The python-docx document object model

    Only what the program touches: section margins, paragraphs with runs,
    and tables whose cells can span several grid columns.  The library is
    not part of the program; the definitions follow its behaviour: a new
    table cell holds one empty paragraph, [row.cells] repeats a spanning
    cell once per grid column, and a horizontal merge lets the left cell
    swallow its right neighbours, adding their spans, widths and content. *)

Inductive WD_ALIGN_PARAGRAPH := LEFT | CENTER | RIGHT | JUSTIFY | DISTRIBUTE.

Record run := mkRun {
  run_text : string;
  run_bold : option bool;
  run_size : option Z;
  run_name : option string
}.

Record paragraph := mkParagraph {
  p_alignment : option WD_ALIGN_PARAGRAPH;
  p_runs : list run
}.

(** A table cell element: its width, the number of grid columns it spans
    and its content. *)
Record tc := mkTc {
  tc_width : Z;
  grid_span : nat;
  tc_paragraphs : list paragraph
}.

Abbreviation tr := (list tc).

Record table := mkTable {
  t_style : option string;
  t_rows : list tr
}.

Inductive block :=
  | BParagraph (p : paragraph)
  | BTable (t : table).

Record Document := mkDocument {
  page_w : Z;
  top_margin : Z;
  bottom_margin : Z;
  left_margin : Z;
  right_margin : Z;
  body : list block
}.

Definition Inches_half : Z := 457200.          (* Inches(0.5) *)
Definition Cm (x : Z) : Z := (x * 360000)%Z.
Definition Pt (x : Z) : Z := (x * 12700)%Z.

(** A cell width is kept in the file in whole twips of 635 EMU:
    [Length.twips] rounds to the nearest twip when the width is written,
    and [Twips] gives the length that is read back.  No length lies
    half-way between two twips, 635 being odd, and the library's division
    in doubles finds the same twip for every length below 2^50 EMU. *)
Definition twips (emu : Z) : Z :=
  let q := (emu / 635)%Z in
  let r := (emu mod 635)%Z in
  if (2 * r <? 635)%Z then q else (q + 1)%Z.

Definition Twips (n : Z) : Z := (n * 635)%Z.

Definition stored_width (emu : Z) : Z := Twips (twips emu).

(** [Document()]: the default template, US Letter with margins of 1 and
    1.25 inch and an empty body. *)
Definition Document_new : Document :=
  {| page_w := 7772400; top_margin := 914400; bottom_margin := 914400;
     left_margin := 1143000; right_margin := 1143000; body := [] |}.

Definition empty_paragraph : paragraph :=
  {| p_alignment := None; p_runs := [] |}.

Definition append_block (doc : Document) (b : block) : Document :=
  {| page_w := page_w doc; top_margin := top_margin doc;
     bottom_margin := bottom_margin doc; left_margin := left_margin doc;
     right_margin := right_margin doc; body := body doc ++ [b] |}.

(** [doc.add_table(rows, cols)] gives every cell one empty paragraph and
    an equal share of the width between the margins, in whole twips. *)
Definition block_width (doc : Document) : Z :=
  (page_w doc - left_margin doc - right_margin doc)%Z.

Definition new_tc (w : Z) : tc :=
  {| tc_width := w; grid_span := 1; tc_paragraphs := [empty_paragraph] |}.

Definition new_rows (rows cols : nat) (width : Z) : list tr :=
  let col_width := if (0 <? cols)%nat then (width / Z.of_nat cols)%Z else 0%Z in
  replicate rows (replicate cols (new_tc (stored_width col_width))).

(** [row.cells]: one entry per grid column, a spanning cell is repeated.
    An entry is the position of the cell element in its row. *)
Fixpoint cells_from (i : nat) (row : tr) : list nat :=
  match row with
  | [] => []
  | t :: row' => replicate (grid_span t) i ++ cells_from (S i) row'
  end.

Definition cells (row : tr) : list nat := cells_from 0 row.

(** [cell.width = w]; what [cell.width] then reads is the stored width. *)
Definition set_width (w : Z) (t : tc) : tc :=
  {| tc_width := stored_width w; grid_span := grid_span t;
     tc_paragraphs := tc_paragraphs t |}.

(** [cell.text = s]: the content becomes one paragraph with one run.
    The string is taken to be text that the library keeps as it is: no
    control character that XML cannot hold, on which the library raises
    [ValueError], and no carriage return, which it turns into a line
    break. *)
Definition text_run (s : string) : run :=
  {| run_text := s; run_bold := None; run_size := None; run_name := None |}.

Definition set_text (s : string) (t : tc) : tc :=
  {| tc_width := tc_width t; grid_span := grid_span t;
     tc_paragraphs := [ {| p_alignment := None; p_runs := [text_run s] |} ] |}.

(** [paragraph.text] and [cell.text] as read back: the runs of a
    paragraph joined, the paragraphs of a cell separated by a newline. *)
Definition paragraph_text (p : paragraph) : string :=
  String.concat EmptyString (map run_text (p_runs p)).

Definition cell_text (t : tc) : string :=
  String.concat (String (Ascii.ascii_of_nat 10) EmptyString)
    (map paragraph_text (tc_paragraphs t)).

(** [[cell.text for cell in row.cells]] *)
Definition column_texts (row : tr) : list string :=
  (λ i, default EmptyString (cell_text <$> row !! i)) <$> cells row.

(** *** Merging cells of one row *)

(** A cell is empty when it holds a single paragraph without runs. *)
Definition tc_is_empty (t : tc) : bool :=
  match tc_paragraphs t with
  | [p] => match p_runs p with [] => true | _ => false end
  | _ => false
  end.

Definition remove_trailing_empty_p (ps : list paragraph) : list paragraph :=
  match reverse ps with
  | [] => []
  | p :: before =>
      match p_runs p with
      | [] => reverse before
      | _ => ps
      end
  end.

(** The content of a swallowed cell moves to the end of the surviving one,
    unless the swallowed cell is empty. *)
Definition move_content_to (src : tc) (dst : list paragraph)
  : list paragraph :=
  if tc_is_empty src then dst
  else remove_trailing_empty_p dst ++ tc_paragraphs src.

(** Widths add up only when both are set and non-zero. *)
Definition add_width_of (top next : tc) : Z :=
  if negb (tc_width top =? 0)%Z && negb (tc_width next =? 0)%Z
  then stored_width (tc_width top + tc_width next)
  else tc_width top.

Definition swallow_next_tc (top next : tc) : tc :=
  {| tc_width := add_width_of top next;
     grid_span := grid_span top + grid_span next;
     tc_paragraphs := move_content_to next (tc_paragraphs top) |}.

(** [a.merge(b)] for two cells of the same row, given by position: the
    leftmost of the two swallows every cell up to the rightmost one. *)
Definition merge (a b : nat) (row : tr) : tr :=
  let lo := Nat.min a b in
  let hi := Nat.max a b in
  match row !! lo with
  | None => row
  | Some top =>
      take lo row
      ++ [foldl swallow_next_tc top (take (hi - lo) (drop (S lo) row))]
      ++ drop (S hi) row
  end.

Section Program.

Context {F : Type} {num : PyNum F}.

(** ** Helper functions *)

Definition fontname_or_empty (w : gword F) : string :=
  match w_fontname w with
  | Some f => f
  | None => EmptyString
  end.

Definition is_bold (w : gword F) : bool :=
  py_in "Bold" (fontname_or_empty w).

Definition is_centered (l : gline F) (page_center : F) : bool :=
  let x0 := l_x0 l in
  let x1 := l_x1 l in
  (num_abs ((x0 + x1) / num_of_Z 2 - page_center) <? num_of_Z 20)%num.

Definition get_words_for_line (l : gline F) (words : list (gword F))
  (threshold : F) : list (gword F) :=
  List.filter (λ w, (num_abs (w_top w - l_top l) <? threshold)%num) words.

Definition is_line_inside_table `{VExtent F A} (l : A) (table_bbox : gbbox F)
  (tol : F) : bool :=
  let '(x0, top, x1, bottom) := table_bbox in
  (top - tol <=? top_of l)%num && (bottom_of l <=? bottom + tol)%num.

Definition default_threshold : F := num_of_Z 3.
Definition default_tol : F := num_of_Z 2.

(** ** Word creation *)

Definition create_word : Document :=
  let doc := Document_new in
  {| page_w := page_w doc;
     top_margin := Inches_half; bottom_margin := Inches_half;
     left_margin := Inches_half; right_margin := Inches_half;
     body := body doc |}.

Definition default_font_size : Z := 11.
Definition default_font_name : string := "Times New Roman".

Definition word_run (font_size : Z) (font_name : string) (w : gword F) : run :=
  {| run_text := w_text w +:+ " ";
     run_bold := Some (is_bold w);
     run_size := Some (Pt font_size);
     run_name := Some font_name |}.

(** Adds a paragraph for one line; the new paragraph is the last block of
    the returned document. *)
Definition add_line_paragraph (doc : Document) (l : gline F)
  (line_words : list (gword F)) (page_center : F)
  (font_size : Z) (font_name : string) : Document :=
  let alignment := if is_centered l page_center then CENTER else LEFT in
  append_block doc
    (BParagraph {| p_alignment := Some alignment;
                   p_runs := map (word_run font_size font_name) line_words |}).

(** ** Table handling *)

(** [table[r][c] if table[r][c] else None]: [None] and the empty string
    are both falsy. *)
Definition truthy_or_none (raw : option string) : option string :=
  match raw with
  | Some EmptyString => None
  | Some s => Some s
  | None => None
  end.

Definition set_bold (b : bool) (r : run) : run :=
  {| run_text := run_text r; run_bold := Some b;
     run_size := run_size r; run_name := run_name r |}.

(** Body of [for paragraph in cell.paragraphs]: the first run, or a new
    one when there is none, gets the bold flag; the paragraph is centred. *)
Definition style_paragraph (b : bool) (p : paragraph) : paragraph :=
  {| p_alignment := Some CENTER;
     p_runs := match p_runs p with
               | r :: rs => set_bold b r :: rs
               | [] => [set_bold b (text_run EmptyString)]
               end |}.

(** [for w in table_words: if w.text.strip() == value.strip(): ...; break] *)
Definition matching_word (table_words : list (gword F)) (value : string)
  : option (gword F) :=
  List.find (λ w, String.eqb (strip (w_text w)) (strip value)) table_words.

Definition apply_style (table_words : list (gword F)) (value : string) (t : tc)
  : tc :=
  match matching_word table_words value with
  | Some w =>
      {| tc_width := tc_width t; grid_span := grid_span t;
         tc_paragraphs := map (style_paragraph (is_bold w)) (tc_paragraphs t) |}
  | None => t
  end.

(** Body of [for c in range(cols)].  The state is the docx table built so
    far and [merge_count]. *)
Definition cell_step (table : grid) (table_words : list (gword F))
  (col_widths : list Z) (r : nat) (st : list tr * Z) (c : nat)
  : result (list tr * Z) :=
  let '(word_table, merge_count) := st in
  raw ← lookup_or (IndexError TableCell) (table !! r ≫= (.!! c));
  let value := truthy_or_none raw in
  row ← lookup_or (IndexError DocCells) (word_table !! r);
  cell ← lookup_or (IndexError DocCells) (py_get (cells row) (Z.of_nat c));
  w ← lookup_or (IndexError ColWidths) (col_widths !! c);
  let row := alter (set_width (Cm w)) cell row in
  match value with
  | None =>
      if (0 <? c)%nat then
        prev_cell ← lookup_or (IndexError DocCells)
                     (py_get (cells row) (Z.of_nat c - 1 - merge_count)%Z);
        Ok (<[r := merge prev_cell cell row]> word_table,
            (merge_count + 1)%Z)
      else Ok (<[r := row]> word_table, merge_count)
  | Some v =>
      let row := alter (set_text v) cell row in
      let row := alter (apply_style table_words v) cell row in
      Ok (<[r := row]> word_table, 0%Z)
  end.

(** Body of [for r in range(rows)]: [merge_count] starts at 0 in each row. *)
Definition row_step (table : grid) (table_words : list (gword F))
  (col_widths : list Z) (cols : nat) (word_table : list tr) (r : nat)
  : result (list tr) :=
  st ← for_each (cell_step table table_words col_widths r)
                (word_table, 0%Z) (seq 0 cols);
  Ok st.1.

Definition add_table_to_doc (doc : Document) (table : grid)
  (table_words : list (gword F)) (col_widths : list Z) : result Document :=
  match table with
  | [] => Ok doc
  | row0 :: _ =>
      let rows := length table in
      let cols := length row0 in
      let word_table := new_rows rows cols (block_width doc) in
      word_table ← for_each (row_step table table_words col_widths cols)
                            word_table (seq 0 rows);
      let doc := append_block doc
                   (BTable {| t_style := Some "Table Grid"%string;
                              t_rows := word_table |}) in
      Ok (append_block doc (BParagraph empty_paragraph))
  end.

Definition default_col_widths : list Z := [1; 3; 8]%Z.

(** ** PDF extraction and the main routine *)

Definition extract_tables (pg : gpdf_page F) : list grid :=
  map ft_extract (find_tables pg).

(** What the run does to the outside world. *)
Inductive event :=
  | Save (filename : string) (doc : Document)
  | Print (text : string).

Record outcome := mkOutcome {
  effects : list event;
  raised : option exn
}.

(** Words that belong to a table: one entry per pair of a word and a
    bounding box that contains the word's vertical span. *)
Definition table_words_for (words : list (gword F))
  (table_bboxes : list (gbbox F))
  : list (gword F) :=
  w ← words;
  tb_bbox ← table_bboxes;
  if is_line_inside_table
       {| tb_top := w_top w; tb_bottom := w_bottom w |} tb_bbox default_tol
  then [w] else [].

(** Body of [for line in lines]. *)
Definition line_step (words : list (gword F)) (table_bboxes : list (gbbox F))
  (page_center : F) (doc : Document) (l : gline F) : Document :=
  let inside_table :=
    existsb (λ tb_bbox, is_line_inside_table l tb_bbox default_tol)
            table_bboxes in
  if inside_table then doc
  else
    let line_words := get_words_for_line l words default_threshold in
    match line_words with
    | [] => doc
    | _ :: _ =>
        add_line_paragraph doc l line_words page_center
          default_font_size default_font_name
    end.

(** The loop that adds the normal text. *)
Definition add_normal_text (words : list (gword F))
  (table_bboxes : list (gbbox F))
  (page_center : F) (lines : list (gline F)) (doc : Document) : Document :=
  foldl (line_step words table_bboxes page_center) doc lines.

(** Body of [for table in tables]. *)
Definition table_step (words : list (gword F)) (table_bboxes : list (gbbox F))
  (doc : Document) (t : grid) : result Document :=
  let table_words := table_words_for words table_bboxes in
  add_table_to_doc doc t table_words [1; 3; 15]%Z.

(** The loop that adds the tables. *)
Definition add_tables (words : list (gword F)) (table_bboxes : list (gbbox F))
  (tables : list grid) (doc : Document) : result Document :=
  for_each (table_step words table_bboxes) doc tables.

Section Main.

(** [pdfplumber.open]: the pages of the file at a path, or nothing when
    the file cannot be read. *)
Variable pdfplumber_open : string → option (list (gpdf_page F)).

Definition extract_words_and_lines (pdf_path : string)
  : result (list (gword F) * list (gline F) * gpage F * list grid
            * list (gbbox F)) :=
  pdf ← lookup_or ExtractionError (pdfplumber_open pdf_path);
  pg ← lookup_or (IndexError Pages) (pdf !! 0%nat);
  let words := extract_words pg in
  let lines := extract_text_lines pg in
  let tables := extract_tables pg in
  let table_bboxes := map ft_bbox (find_tables pg) in
  Ok (words, lines, pg_page pg, tables, table_bboxes).

(** The document as it stands when [main] reaches [doc.save]. *)
Definition build_document (pdf_path : string) : result Document :=
  '(words, lines, page, tables, table_bboxes) ←
    extract_words_and_lines pdf_path;
  let doc := create_word in
  let page_center := (page_width page / num_of_Z 2)%num in
  let doc := add_normal_text words table_bboxes page_center lines doc in
  add_tables words table_bboxes tables doc.

(** [main]: a run that builds the document saves it and prints one
    line.  The save is taken to succeed; a save that fails would raise
    after the document is built, and nothing would be printed. *)
Definition main (pdf_path output_doc : string) : outcome :=
  match build_document pdf_path with
  | Raise e => {| effects := []; raised := Some e |}
  | Ok doc =>
      {| effects := [Save "word_file3.docx" doc;
                     Print ("Word document saved: " +:+ output_doc)];
         raised := None |}
  end.

End Main.

End Program.

Arguments is_centered {F num} l page_center%_Q.
Arguments get_words_for_line {F num} l words threshold%_Q.
Arguments is_line_inside_table {F num A _} l table_bbox%_Q tol%_Q.
Arguments add_line_paragraph {F num} doc l line_words page_center%_Q.
Arguments line_step {F num} words table_bboxes page_center%_Q doc l.
Arguments add_normal_text {F num} words table_bboxes page_center%_Q.

Definition default_pdf_path : string := "django_assignment.pdf".
Definition default_output_doc : string := "word_doc.docx".

(** * A page with a heading, a text line and a table

    The scenario of the specification: a centred bold heading, a plain
    line and a 2 x 2 table whose last cell is absent. *)

Definition sample_page : pdf_page :=
  {| pg_page := mkPage 600 800;
     extract_words :=
       [ mkWord "TITLE" 50 62 270 330 (Some "Times-Bold"%string) 14;
         mkWord "Body" 100 111 40 70 (Some "Times-Roman"%string) 11;
         mkWord "text" 100 111 75 120 (Some "Times-Roman"%string) 11;
         mkWord "H1" 205 215 40 60 (Some "Arial-BoldMT"%string) 11;
         mkWord "H2" 205 215 240 260 (Some "Arial-BoldMT"%string) 11;
         mkWord "v1" 235 245 40 60 (Some "ArialMT"%string) 11 ];
     extract_text_lines :=
       [ mkLine "TITLE" 50 62 270 330;
         mkLine "Body text" 100 111 40 120;
         mkLine "H1 H2" 205 215 40 260;
         mkLine "v1" 235 245 40 60 ];
     find_tables :=
       [ {| ft_bbox := (30, 200, 500, 250)%Q;
            ft_extract := [[Some "H1"; Some "H2"]; [Some "v1"; None]]%string
         |} ] |}.

Definition sample_open (path : string) : option (list pdf_page) :=
  if String.eqb path "sample.pdf" then Some [sample_page] else None.

(** * Specification-side notions *)

(** Geometric overlap of a line with a table bounding box, the vertical
    extent of the box widened by a tolerance: the two rectangles share a
    point. *)
Definition overlaps_bbox (l : line) (table_bbox : bbox) (tol : Q) : Prop :=
  let '(x0, top, x1, bottom) := table_bbox in
  (l_x0 l <= x1)%Q ∧ (x0 <= l_x1 l)%Q
  ∧ (l_top l <= bottom + tol)%Q ∧ (top - tol <= l_bottom l)%Q.

(** The visual cells of a table row, as the table builder is meant to
    lay them out.  [populated_tc] is the cell of a present value: the text
    in one run, bold and centred after the first word with the same
    trimmed text, plain when there is none. *)
Definition populated_tc (table_words : list word) (w : Z) (v : string) : tc :=
  {| tc_width := stored_width (Cm w);
     grid_span := 1;
     tc_paragraphs :=
       [ match matching_word table_words v with
         | Some m =>
             {| p_alignment := Some CENTER;
                p_runs := [ {| run_text := v; run_bold := Some (is_bold m);
                               run_size := None; run_name := None |} ] |}
         | None =>
             {| p_alignment := None;
                p_runs := [ {| run_text := v; run_bold := None;
                               run_size := None; run_name := None |} ] |}
         end ] |}.

(** A cell that takes in the next grid column, of width [w]: it keeps its
    content and spans one column more. *)
Definition widen (t : tc) (w : Z) : tc :=
  {| tc_width := if negb (tc_width t =? 0)%Z
                    && negb (stored_width (Cm w) =? 0)%Z
                 then stored_width (tc_width t + stored_width (Cm w))
                 else tc_width t;
     grid_span := grid_span t + 1;
     tc_paragraphs := tc_paragraphs t |}.

(** Reading a source row from left to right: a present value opens a new
    visual cell; an absent or empty one widens the last visual cell, or
    opens an empty cell when the row starts with it. *)
Definition absorb (table_words : list word) (acc : tr)
  (x : option string * Z) : tr :=
  match x.1 with
  | None | Some EmptyString =>
      match last acc with
      | None => [new_tc (stored_width (Cm x.2))]
      | Some t => removelast acc ++ [widen t x.2]
      end
  | Some v => acc ++ [populated_tc table_words x.2 v]
  end.

Definition visual_row (table_words : list word) (col_widths : list Z)
  (src : list (option string)) : tr :=
  foldl (absorb table_words) [] (zip src col_widths).

(** The layout of a row read off its source cells, column by column.
    [present_value] is the text of a cell that has one. *)
Definition present_value (x : option string) : option string :=
  match x with
  | Some (String a s) => Some (String a s)
  | _ => None
  end.

(** The visual cell that covers each column: column 0 lies in cell 0; a
    present value starts the next visual cell; an absent one stays in the
    visual cell of its left neighbour. *)
Definition covering_step (acc : list nat) (x : option string) : list nat :=
  acc ++ [ match last acc, present_value x with
           | None, _ => 0
           | Some i, Some _ => S i
           | Some i, None => i
           end ].

Definition covering (src : list (option string)) : list nat :=
  foldl covering_step [] src.

(** The text shown in each column: the present value itself, otherwise
    the text shown by the left neighbour, and nothing in column 0. *)
Definition shown_step (acc : list string) (x : option string) : list string :=
  acc ++ [ match present_value x with
           | Some v => v
           | None => default EmptyString (last acc)
           end ].

Definition shown_texts (src : list (option string)) : list string :=
  foldl shown_step [] src.

(** The grid columns a row takes up, and what holds between two
    iterations of the column loop: [G] are the visual cells built so far,
    [k] is the next column and [mc] the merge counter. *)
Definition total_span (row : tr) : nat := sum_list (grid_span <$> row).

Definition row_inv (G : tr) (k : nat) (mc : Z) : Prop :=
  total_span G = k
  ∧ Forall (λ t, 1 ≤ grid_span t) G
  ∧ mc = match last G with
         | Some t => (Z.of_nat (grid_span t) - 1)%Z
         | None => 0%Z
         end.

(** The width of a row: the widths of its cells together. *)
Definition row_width (row : tr) : Z := foldr Z.add 0%Z (map tc_width row).

(** The paragraph of a cell with the present value [v]: the text in one
    run without font name or size, flagged and centred after the first
    table word with the same trimmed text, plain when there is none. *)
Definition value_paragraph (table_words : list word) (v : string)
  : paragraph :=
  match matching_word table_words v with
  | Some m =>
      {| p_alignment := Some CENTER;
         p_runs := [ {| run_text := v; run_bold := Some (is_bold m);
                        run_size := None; run_name := None |} ] |}
  | None =>
      {| p_alignment := None;
         p_runs := [ {| run_text := v; run_bold := None;
                        run_size := None; run_name := None |} ] |}
  end.

(** What a visual cell of the row built from [src] can hold: one empty
    paragraph, or the paragraph of a present value of [src]. *)
Definition cell_content (table_words : list word)
  (src : list (option string)) (t : tc) : Prop :=
  tc_paragraphs t = [empty_paragraph]
  ∨ ∃ a v, Some (String a v) ∈ src
           ∧ tc_paragraphs t = [value_paragraph table_words (String a v)].



(** A cell whose width is a positive number of twips. *)
Definition whole_twips (t : tc) : Prop :=
  ∃ k, (0 < k)%Z ∧ tc_width t = Twips k.

(** A document with further blocks at its end. *)
Definition append_blocks (doc : Document) (bs : list block) : Document :=
  {| page_w := page_w doc; top_margin := top_margin doc;
     bottom_margin := bottom_margin doc; left_margin := left_margin doc;
     right_margin := right_margin doc; body := body doc ++ bs |}.

(** The blocks a grid contributes to the document: nothing for an empty
    grid, otherwise its table and the spacing paragraph. *)
Definition table_blocks (table_words : list word) (col_widths : list Z)
  (g : grid) : list block :=
  match g with
  | [] => []
  | row0 :: _ =>
      [ BTable {| t_style := Some "Table Grid"%string;
                  t_rows := map (λ src, visual_row table_words col_widths
                                          (take (length row0) src)) g |};
        BParagraph empty_paragraph ]
  end.

(** A grid the table builder can take with [n] column widths: it is empty,
    or its first row has at most [n] cells and no row has fewer cells than
    the first. *)
Definition grid_fits (n : nat) (g : grid) : Prop :=
  match g with
  | [] => True
  | row0 :: rest =>
      length row0 ≤ n ∧ Forall (λ src, length row0 ≤ length src) rest
  end.

(** Two source cells that differ at most in being absent or empty. *)
Inductive falsy : option string → Prop :=
  | falsy_none : falsy None
  | falsy_empty : falsy (Some EmptyString).

Definition same_or_falsy (x y : option string) : Prop :=
  x = y ∨ (falsy x ∧ falsy y).

(** * Properties *)

(** ** Rational comparisons *)

Lemma Qltb_lt a b : Qltb a b = true ↔ (a < b)%Q.
Proof.
  unfold Qltb. rewrite negb_true_iff. split.
  - intros H. apply Qnot_le_lt. intros Hle.
    apply Qle_bool_iff in Hle. congruence.
  - intros H. destruct (Qle_bool b a) eqn:E; [|done].
    apply Qle_bool_iff in E. exfalso. eapply Qlt_not_le; eauto.
Qed.

(** The operations of the rational instance, unfolded. *)
Ltac q_ops :=
  cbn [num_add num_sub num_div num_abs num_ltb num_leb num_of_Z Q_num] in *;
  unfold inject_Z in *.

(** ** Strings *)

Lemma append_cons (a : Ascii.ascii) (s t : string) :
  String a s +:+ t = String a (s +:+ t).
Proof. reflexivity. Qed.

Lemma append_nil (t : string) : EmptyString +:+ t = t.
Proof. reflexivity. Qed.

Lemma prefix_app (p s : string) :
  String.prefix p s = true ↔ ∃ post, s = p +:+ post.
Proof.
  revert s. induction p as [|a p IH]; intros s; simpl.
  - split; [intros _; by exists s | by intros _; destruct s].
  - destruct s as [|b s]; simpl.
    + split; [done | intros [post H]; discriminate].
    + destruct (Ascii.ascii_dec a b) as [->|Hne].
      * rewrite IH. split; intros [post H]; exists post.
        -- rewrite append_cons. by rewrite H.
        -- rewrite append_cons in H. by injection H.
      * split; [done | intros [post H]].
        rewrite append_cons in H. congruence.
Qed.

(** [py_in] is the substring test. *)
Lemma py_in_substring (needle hay : string) :
  py_in needle hay = true ↔ ∃ pre post, hay = pre +:+ needle +:+ post.
Proof.
  induction hay as [|a hay IH]; cbn [py_in].
  - destruct (String.prefix needle EmptyString) eqn:E.
    + split; [intros _ | done].
      apply prefix_app in E as [post E]. by exists EmptyString, post.
    + split; [done | intros (pre & post & H)].
      destruct pre as [|b pre]; [|by rewrite append_cons in H].
      rewrite append_nil in H.
      assert (String.prefix needle EmptyString = true) as E'
        by (apply prefix_app; eauto).
      congruence.
  - destruct (String.prefix needle (String a hay)) eqn:E.
    + split; [intros _ | done].
      apply prefix_app in E as [post E]. by exists EmptyString, post.
    + rewrite IH. split.
      * intros (pre & post & ->). by exists (String a pre), post.
      * intros (pre & post & H). destruct pre as [|b pre].
        -- rewrite append_nil in H.
           assert (String.prefix needle (String a hay) = true) as E'
             by (apply prefix_app; eauto).
           congruence.
        -- rewrite append_cons in H. injection H as -> ->. eauto.
Qed.

(** ** Loops *)

Lemma for_each_app {S A} (body : S → A → result S) s l1 l2 :
  for_each body s (l1 ++ l2) = s' ← for_each body s l1; for_each body s' l2.
Proof.
  revert s. induction l1 as [|a l1 IH]; intros s; simpl; [done|].
  destruct (body s a) as [s'|e]; simpl; [apply IH | done].
Qed.

Lemma for_each_cons_ok {S A} (body : S → A → result S) s s' a l :
  body s a = Ok s' → for_each body s (a :: l) = for_each body s' l.
Proof. intros H. simpl. by rewrite H. Qed.

(** In a loop that completes, every iteration completes. *)
Lemma for_each_ok_all {S A} (body : S → A → result S) (l : list A) :
  ∀ s s', for_each body s l = Ok s' →
  ∀ a, a ∈ l → ∃ s1 s2, body s1 a = Ok s2.
Proof.
  induction l as [|a l IH]; intros s s' Hrun a' Hin.
  - by apply elem_of_nil in Hin.
  - simpl in Hrun. destruct (body s a) as [s1|e] eqn:E; simpl in Hrun; [|done].
    apply elem_of_cons in Hin as [->|Hin]; [by exists s, s1|].
    by apply (IH s1 s').
Qed.

(** A loop raises only what one of its iterations raises. *)
Lemma for_each_raise {S A} (body : S → A → result S) (l : list A) e :
  ∀ s, for_each body s l = Raise e →
  ∃ s' a, a ∈ l ∧ body s' a = Raise e.
Proof.
  induction l as [|a l IH]; intros s; simpl; [done|].
  destruct (body s a) as [s'|e'] eqn:E; simpl.
  - intros H. destruct (IH _ H) as (s'' & a' & Hin & Hb).
    exists s'', a'. split; [by right | done].
  - intros [= ->]. exists s, a. split; [by left | done].
Qed.

(** ** Documents *)

Lemma append_block_neq doc b : append_block doc b ≠ doc.
Proof.
  intros H. apply (f_equal (λ d, length (body d))) in H.
  simpl in H. rewrite length_app in H. simpl in H. lia.
Qed.

Lemma append_block_inj doc b b' :
  append_block doc b = append_block doc b' → b = b'.
Proof.
  intros H. apply (f_equal body) in H. simpl in H.
  by apply app_inj_tail in H as [_ ?].
Qed.

(** ** The containment test, in words *)

Lemma is_line_inside_table_spec `{VExtent Q A} (l : A)
  (x0 top x1 bottom tol : Q) :
  is_line_inside_table l (x0, top, x1, bottom) tol = true
  ↔ (top - tol <= top_of l)%Q ∧ (bottom_of l <= bottom + tol)%Q.
Proof.
  unfold is_line_inside_table. q_ops. rewrite andb_true_iff.
  by rewrite !Qle_bool_iff.
Qed.

Lemma is_centered_spec (l : line) (page_center : Q) :
  is_centered l page_center = true
  ↔ (Qabs ((l_x0 l + l_x1 l) / 2 - page_center) < 20)%Q.
Proof. unfold is_centered. q_ops. apply Qltb_lt. Qed.

(** What one iteration of the text loop does, by cases. *)
Lemma line_step_cases {F} {num : PyNum F} (words : list (gword F))
  (table_bboxes : list (gbbox F)) (page_center : F) doc (l : gline F) :
  let line_words := get_words_for_line l words default_threshold in
  (line_step words table_bboxes page_center doc l = doc
   ∧ (existsb (λ bb, is_line_inside_table l bb default_tol) table_bboxes = true
      ∨ line_words = []))
  ∨ (line_step words table_bboxes page_center doc l
       = add_line_paragraph doc l line_words page_center
           default_font_size default_font_name
     ∧ existsb (λ bb, is_line_inside_table l bb default_tol) table_bboxes
       = false
     ∧ line_words ≠ []).
Proof.
  unfold line_step.
  destruct (existsb _ table_bboxes) eqn:E; [left; auto|].
  destruct (get_words_for_line l words default_threshold) eqn:Ew.
  - left; auto.
  - right; auto.
Qed.


Lemma outside_every_table (l : line) (table_bboxes : list bbox) :
  existsb (λ bb, is_line_inside_table l bb default_tol) table_bboxes = false
  ↔ ∀ x0 top x1 bottom, (x0, top, x1, bottom) ∈ table_bboxes →
      ¬ ((top - 2 <= l_top l)%Q ∧ (l_bottom l <= bottom + 2)%Q).
Proof.
  induction table_bboxes as [|[[[x0 top] x1] bottom] bbs IH]; cbn [existsb].
  - split; [intros _ ? ? ? ? Hin; by apply elem_of_nil in Hin | done].
  - rewrite orb_false_iff, IH. split.
    + intros [Hb Hall] x0' top' x1' bottom' Hin.
      apply elem_of_cons in Hin as [Heq|Hin];
        [|by apply (Hall x0' top' x1' bottom')].
      injection Heq as -> -> -> ->. intros Hin.
      pose proof (proj2 (is_line_inside_table_spec l x0 top x1 bottom 2) Hin).
      unfold default_tol in Hb. q_ops. congruence.
    + intros Hall. split.
      * unfold default_tol. q_ops.
        destruct (is_line_inside_table l (x0, top, x1, bottom) 2)
          eqn:E; [|done].
        apply (is_line_inside_table_spec l x0 top x1 bottom) in E.
        exfalso. apply (Hall x0 top x1 bottom); [by left | done].
      * intros x0' top' x1' bottom' Hin.
        apply (Hall x0' top' x1' bottom'). by right.
Qed.

(** ** Doubles at the boundary

    The tests over doubles round as the interpreter does.  The sum
    248.6 + 391.4 is 640.0, so the line is exactly 20 away from the centre
    of a page 600 wide; 254.6 + 2 is 256.6, so a line that ends at 256.6
    is inside a box that ends at 254.6; and 3.3 - 0.3 is 3.0, so the word
    is not within 3 of the line. *)

Example is_centered_double_boundary :
  is_centered (mkLine "x" 0%float 10%float 248.6%float 391.4%float)
    (600 / 2)%float
  = false.
Proof. vm_compute. reflexivity. Qed.

Example is_line_inside_table_double_boundary :
  is_line_inside_table (mkLine "x" 159.6%float 256.6%float 0%float 10%float)
    (0, 154.6, 100, 254.6)%float default_tol
  = true.
Proof. vm_compute. reflexivity. Qed.

Example get_words_for_line_double_boundary :
  get_words_for_line (mkLine "x" 0.3%float 10%float 0%float 10%float)
    [mkWord "x" 3.3%float 13%float 0%float 10%float None 11%float]
    default_threshold
  = [].
Proof. vm_compute. reflexivity. Qed.

(** ** Table rows *)

Lemma sum_list_app (l k : list nat) :
  sum_list (l ++ k) = sum_list l + sum_list k.
Proof. induction l as [|n l IH]; simpl; [done | rewrite IH; lia]. Qed.

Lemma total_span_app G H : total_span (G ++ H) = total_span G + total_span H.
Proof. unfold total_span. by rewrite fmap_app, sum_list_app. Qed.

Lemma cells_from_app i G H :
  cells_from i (G ++ H) = cells_from i G ++ cells_from (i + length G) H.
Proof.
  revert i. induction G as [|t G IH]; intros i; simpl.
  - by rewrite Nat.add_0_r.
  - rewrite IH, <- app_assoc. do 3 f_equal. lia.
Qed.

Lemma length_cells_from i G : length (cells_from i G) = total_span G.
Proof.
  revert i. induction G as [|t G IH]; intros i; simpl; [done|].
  rewrite length_app, length_replicate, IH. done.
Qed.

(** The entry of [row.cells] for the first column after [G]. *)
Lemma cells_lookup_next G t rest :
  1 ≤ grid_span t →
  py_get (cells (G ++ t :: rest)) (Z.of_nat (total_span G))
  = Some (length G).
Proof.
  intros Hspan. unfold py_get, cells.
  rewrite (proj2 (Z.leb_le 0 _)) by lia.
  rewrite Nat2Z.id, cells_from_app.
  rewrite lookup_app_r by (rewrite length_cells_from; lia).
  rewrite length_cells_from, Nat.sub_diag. simpl.
  destruct (grid_span t); [lia | done].
Qed.

Lemma swallow_new_tc t w :
  swallow_next_tc t (new_tc (stored_width (Cm w))) = widen t w.
Proof. reflexivity. Qed.

Lemma apply_style_set_text table_words v w :
  apply_style table_words v (set_text v (new_tc (stored_width (Cm w))))
  = populated_tc table_words w v.
Proof.
  unfold apply_style, populated_tc.
  by destruct (matching_word table_words v).
Qed.

Lemma merge_last init last_tc next rest :
  merge (length init) (length (init ++ [last_tc]))
        ((init ++ [last_tc]) ++ next :: rest)
  = init ++ [swallow_next_tc last_tc next] ++ rest.
Proof.
  unfold merge. rewrite length_app. simpl.
  replace (Nat.min (length init) (length init + 1)) with (length init) by lia.
  replace (Nat.max (length init) (length init + 1))
    with (S (length init)) by lia.
  rewrite <- !app_assoc. simpl.
  rewrite (list_lookup_middle init (next :: rest) last_tc (length init)
             eq_refl).
  rewrite take_app_length.
  replace (S (length init) - length init) with 1 by lia.
  assert (drop (S (length init)) (init ++ last_tc :: next :: rest)
          = next :: rest) as ->.
  { rewrite (cons_middle last_tc), app_assoc.
    apply drop_app_length'. rewrite length_app. simpl. lia. }
  assert (drop (S (S (length init))) (init ++ last_tc :: next :: rest)
          = rest) as ->.
  { rewrite (cons_middle last_tc), (cons_middle next), !app_assoc.
    apply drop_app_length'. rewrite !length_app. simpl. lia. }
  done.
Qed.

Lemma total_span_snoc G t :
  total_span (G ++ [t]) = total_span G + grid_span t.
Proof. rewrite total_span_app. unfold total_span. cbn. lia. Qed.

Lemma row_inv_nil : row_inv [] 0 0%Z.
Proof. by split_and!. Qed.

Lemma row_inv_cases G k mc :
  row_inv G k mc →
  (G = [] ∧ k = 0 ∧ mc = 0%Z)
  ∨ ∃ init t, G = init ++ [t] ∧ 1 ≤ grid_span t
              ∧ mc = (Z.of_nat (grid_span t) - 1)%Z
              ∧ k = total_span init + grid_span t
              ∧ Forall (λ t, 1 ≤ grid_span t) init.
Proof.
  intros (Hk & Hall & Hmc).
  destruct (last G) as [t|] eqn:E.
  - right. apply last_Some in E as [init ->].
    apply Forall_app in Hall as [Hinit Ht].
    rewrite Forall_singleton in Ht.
    exists init, t. split_and!; try done.
    by rewrite total_span_snoc in Hk.
  - left. apply last_None in E as ->. by split_and!.
Qed.

(** The entry of [row.cells] that the merge counter points back to. *)
Lemma cells_lookup_last init t rest :
  1 ≤ grid_span t →
  py_get (cells ((init ++ [t]) ++ rest))
         (Z.of_nat (total_span init + grid_span t) - 1
          - (Z.of_nat (grid_span t) - 1))%Z
  = Some (length init).
Proof.
  intros Hspan.
  replace (Z.of_nat (total_span init + grid_span t) - 1
           - (Z.of_nat (grid_span t) - 1))%Z
    with (Z.of_nat (total_span init)) by lia.
  rewrite <- app_assoc. simpl. by apply cells_lookup_next.
Qed.

Lemma row_inv_snoc_new G k mc t :
  row_inv G k mc → grid_span t = 1 → row_inv (G ++ [t]) (S k) 0%Z.
Proof.
  intros (Hk & Hall & _) Ht. split_and!.
  - rewrite total_span_snoc. lia.
  - apply Forall_app. split; [done|]. rewrite Forall_singleton. lia.
  - rewrite last_snoc. lia.
Qed.

(** One iteration of the column loop adds the next source cell to the
    visual cells the way [absorb] says. *)
Lemma cell_step_absorb (table : grid) table_words col_widths r wt mc k
    src x w G w0 rest :
  table !! r = Some src → src !! k = Some x → col_widths !! k = Some w →
  wt !! r = Some (G ++ new_tc w0 :: rest) →
  row_inv G k mc →
  ∃ mc', cell_step table table_words col_widths r (wt, mc) k
         = Ok (<[r := absorb table_words G (x, w) ++ rest]> wt, mc')
       ∧ row_inv (absorb table_words G (x, w)) (S k) mc'.
Proof.
  intros Htab Hsrc Hcw Hwt Hinv.
  pose proof Hinv as (Hk & Hall & Hmc). subst k.
  unfold cell_step. rewrite Htab. simpl. rewrite Hsrc. simpl.
  rewrite Hwt. simpl.
  rewrite cells_lookup_next by (simpl; lia). simpl.
  rewrite Hcw. simpl.
  replace (alter (set_width (Cm w)) (length G) (G ++ new_tc w0 :: rest))
    with (G ++ new_tc (stored_width (Cm w)) :: rest)
    by (rewrite <- (Nat.add_0_r (length G)) at 1; by rewrite alter_app_r).
  assert (∀ f t, alter f (length G) (G ++ t :: rest)
                 = G ++ f t :: rest) as Halter.
  { intros f t. rewrite <- (Nat.add_0_r (length G)) at 1.
    by rewrite alter_app_r. }
  assert (truthy_or_none x = None →
    ∃ mc', (if 0 <? total_span G
            then prev_cell ← lookup_or (IndexError DocCells)
                   (py_get (cells (G ++ new_tc (stored_width (Cm w)) :: rest))
                           (Z.of_nat (total_span G) - 1 - mc)%Z);
                 Ok (<[r := merge prev_cell (length G)
                              (G ++ new_tc (stored_width (Cm w)) :: rest)]> wt,
                     (mc + 1)%Z)
            else Ok (<[r := G ++ new_tc (stored_width (Cm w)) :: rest]> wt, mc))
           = Ok (<[r := match last G with
                        | None => [new_tc (stored_width (Cm w))]
                        | Some t => removelast G ++ [widen t w]
                        end ++ rest]> wt, mc')
         ∧ row_inv match last G with
                   | None => [new_tc (stored_width (Cm w))]
                   | Some t => removelast G ++ [widen t w]
                   end (S (total_span G)) mc') as Habsent.
  { intros _.
    destruct (row_inv_cases _ _ _ Hinv)
      as [(-> & _ & ->)|(init & t & -> & Ht & -> & Hk & Hinit)].
    - exists 0%Z. simpl. split; [done|].
      apply (row_inv_snoc_new [] 0 0%Z); [apply row_inv_nil | done].
    - rewrite last_snoc, removelast_last, Hk.
      replace (0 <? total_span init + grid_span t) with true
        by (symmetry; apply Nat.ltb_lt; lia).
      rewrite cells_lookup_last by done. simpl.
      rewrite merge_last, swallow_new_tc.
      exists (Z.of_nat (grid_span t) - 1 + 1)%Z.
      split; [by rewrite <- app_assoc|].
      split_and!.
      + rewrite total_span_snoc. simpl. lia.
      + apply Forall_app. split; [done|]. rewrite Forall_singleton. simpl. lia.
      + rewrite last_snoc. simpl. lia. }
  destruct x as [[|a v]|]; unfold absorb; simpl.
  - apply Habsent. done.
  - rewrite !Halter, apply_style_set_text.
    exists 0%Z. split.
    + by rewrite <- app_assoc.
    + by eapply row_inv_snoc_new.
  - apply Habsent. done.
Qed.

(** The column loop over columns [k .. k + n - 1] of one row. *)
Lemma column_loop_absorb (table : grid) table_words col_widths r src w0 :
  table !! r = Some src →
  ∀ n k G wt mc rest,
    k + n ≤ length src → k + n ≤ length col_widths →
    wt !! r = Some (G ++ replicate n (new_tc w0) ++ rest) →
    row_inv G k mc →
    ∃ mc',
      for_each (cell_step table table_words col_widths r) (wt, mc) (seq k n)
      = Ok (<[r := foldl (absorb table_words) G
                     (zip (take n (drop k src)) (drop k col_widths))
                   ++ rest]> wt, mc')
      ∧ row_inv (foldl (absorb table_words) G
                   (zip (take n (drop k src)) (drop k col_widths)))
                (k + n) mc'.
Proof.
  intros Htab. induction n as [|n IH]; intros k G wt mc rest Hsrc Hcw Hwt Hinv.
  - exists mc. simpl. rewrite Nat.add_0_r. split; [|done].
    by rewrite list_insert_id.
  - destruct (lookup_lt_is_Some_2 src k) as [x Hx]; [lia|].
    destruct (lookup_lt_is_Some_2 col_widths k) as [w Hw]; [lia|].
    rewrite (drop_S _ _ _ Hx), (drop_S _ _ _ Hw).
    cbn [firstn zip_with foldl seq].
    destruct (cell_step_absorb table table_words col_widths r wt mc k src x w
                G w0 (replicate n (new_tc w0) ++ rest) Htab Hx Hw Hwt Hinv)
      as (mc1 & Hstep & Hinv1).
    rewrite (for_each_cons_ok _ _ _ _ _ Hstep).
    destruct (IH (S k) (absorb table_words G (x, w))
                (<[r := absorb table_words G (x, w)
                        ++ replicate n (new_tc w0) ++ rest]> wt)
                mc1 rest) as (mc' & -> & Hinv'); [lia | lia | | done |].
    { apply list_lookup_insert_eq. by eapply lookup_lt_Some. }
    exists mc'. rewrite list_insert_insert_eq.
    replace (k + S n) with (S k + n) by lia. done.
Qed.

(** One iteration of the row loop, on a row that is still untouched. *)
Lemma row_step_visual (table : grid) table_words col_widths cols r src wt w0 :
  table !! r = Some src →
  cols ≤ length src → cols ≤ length col_widths →
  wt !! r = Some (replicate cols (new_tc w0)) →
  row_step table table_words col_widths cols wt r
  = Ok (<[r := visual_row table_words col_widths (take cols src)]> wt).
Proof.
  intros Htab Hsrc Hcw Hwt. unfold row_step.
  destruct (column_loop_absorb table table_words col_widths r src w0 Htab
              cols 0 [] wt 0%Z []) as (mc' & -> & _).
  - done.
  - done.
  - by rewrite app_nil_r.
  - apply row_inv_nil.
  - simpl. rewrite app_nil_r. unfold visual_row. done.
Qed.

(** The row loop over the rows that are still untouched. *)
Lemma row_loop_visual (table : grid) table_words col_widths cols w0 :
  Forall (λ src, cols ≤ length src) table →
  cols ≤ length col_widths →
  ∀ m built,
    length built + m = length table →
    for_each (row_step table table_words col_widths cols)
      (built ++ replicate m (replicate cols (new_tc w0)))
      (seq (length built) m)
    = Ok (built
          ++ map (λ src, visual_row table_words col_widths (take cols src))
                 (drop (length built) table)).
Proof.
  intros Hrows Hcw. induction m as [|m IH]; intros built Hlen.
  - simpl. rewrite drop_ge by lia. done.
  - destruct (lookup_lt_is_Some_2 table (length built)) as [src Hsrc]; [lia|].
    pose proof (Forall_lookup_1 _ _ _ _ Hrows Hsrc) as Hcols.
    cbn [replicate seq].
    rewrite (for_each_cons_ok _ _
               (built ++ visual_row table_words col_widths (take cols src)
                      :: replicate m (replicate cols (new_tc w0)))).
    + rewrite (cons_middle (visual_row _ _ _)), app_assoc.
      replace (S (length built))
        with (length (built ++ [visual_row table_words col_widths
                                  (take cols src)]))
        by (rewrite length_app; simpl; lia).
      rewrite IH by (rewrite length_app; simpl; lia).
      rewrite length_app. simpl.
      rewrite (drop_S _ _ _ Hsrc), Nat.add_1_r, <- app_assoc. done.
    + rewrite (row_step_visual table table_words col_widths cols
                 (length built) src _ w0 Hsrc Hcols Hcw).
      * rewrite <- (Nat.add_0_r (length built)) at 1.
        by rewrite insert_app_r.
      * by apply list_lookup_middle.
Qed.

(** The table builder on a grid whose rows all have at least as many
    cells as the first one, with a width for every column. *)
Lemma add_table_to_doc_visual doc row0 rest table_words col_widths :
  Forall (λ src, length row0 ≤ length src) rest →
  length row0 ≤ length col_widths →
  add_table_to_doc doc (row0 :: rest) table_words col_widths
  = Ok (append_block
          (append_block doc
             (BTable {| t_style := Some "Table Grid"%string;
                        t_rows := map (λ src, visual_row table_words col_widths
                                                (take (length row0) src))
                                      (row0 :: rest) |}))
          (BParagraph empty_paragraph)).
Proof.
  intros Hrest Hcw. unfold add_table_to_doc, new_rows.
  pose proof (row_loop_visual (row0 :: rest) table_words col_widths
                (length row0)
                (stored_width
                   (if 0 <? length row0
                    then (block_width doc / Z.of_nat (length row0))%Z
                    else 0%Z))
                ltac:(by constructor) Hcw (length (row0 :: rest)) [] eq_refl)
    as Hloop.
  simpl in Hloop. simpl. rewrite Hloop. done.
Qed.

(** ** The layout of a built row *)

Lemma present_value_truthy x : present_value x = truthy_or_none x.
Proof. by destruct x as [[|a s]|]. Qed.

Lemma cells_from_bound i G j :
  j ∈ cells_from i G → i ≤ j < i + length G.
Proof.
  revert i. induction G as [|t G IH]; intros i; simpl.
  - by intros ?%elem_of_nil.
  - intros [Hj|Hj]%elem_of_app.
    + apply elem_of_replicate in Hj as [-> _]. lia.
    + apply IH in Hj. lia.
Qed.

Lemma cells_snoc init t :
  cells (init ++ [t]) = cells init ++ replicate (grid_span t) (length init).
Proof. unfold cells. rewrite cells_from_app. simpl. by rewrite app_nil_r. Qed.

Lemma last_cells_snoc init t :
  1 ≤ grid_span t → last (cells (init ++ [t])) = Some (length init).
Proof.
  intros Ht. rewrite cells_snoc.
  destruct (grid_span t) as [|n]; [lia|].
  by rewrite replicate_S_end, app_assoc, last_snoc.
Qed.

Lemma cell_text_populated table_words w v :
  cell_text (populated_tc table_words w v) = v.
Proof.
  unfold populated_tc, cell_text, paragraph_text. simpl.
  by destruct (matching_word table_words v).
Qed.

Lemma absorb_spans table_words G xw :
  Forall (λ t, 1 ≤ grid_span t) G →
  Forall (λ t, 1 ≤ grid_span t) (absorb table_words G xw).
Proof.
  intros HG. unfold absorb.
  assert (Forall (λ t, 1 ≤ grid_span t)
            match last G with
            | None => [new_tc (stored_width (Cm xw.2))]
            | Some t => removelast G ++ [widen t xw.2]
            end) as Habsent.
  { destruct (last G) as [t|] eqn:E.
    - apply last_Some in E as [init ->]. rewrite removelast_last.
      apply Forall_app in HG as [Hinit _].
      apply Forall_app. split; [done|]. rewrite Forall_singleton. simpl. lia.
    - rewrite Forall_singleton. simpl. lia. }
  destruct xw.1 as [[|a v]|]; try done.
  apply Forall_app. split; [done|]. rewrite Forall_singleton. simpl. lia.
Qed.

(** Adding a source cell extends [row.cells] by one column. *)
Lemma cells_absorb table_words G x w :
  Forall (λ t, 1 ≤ grid_span t) G →
  cells (absorb table_words G (x, w)) = covering_step (cells G) x.
Proof.
  intros HG. unfold absorb, covering_step. cbn [fst snd].
  assert (cells match last G with
                | None => [new_tc (stored_width (Cm w))]
                | Some t => removelast G ++ [widen t w]
                end
          = cells G ++ [match last (cells G) with
                        | None => 0
                        | Some i => i
                        end]) as Habsent.
  { destruct (last G) as [t|] eqn:E.
    - apply last_Some in E as [init ->]. rewrite removelast_last.
      apply Forall_app in HG as [_ Ht]. rewrite Forall_singleton in Ht.
      rewrite last_cells_snoc by done. rewrite !cells_snoc. simpl.
      by rewrite Nat.add_1_r, replicate_S_end, app_assoc.
    - apply last_None in E as ->. done. }
  assert (∀ v, cells (G ++ [populated_tc table_words w v])
               = cells G ++ [match last (cells G) with
                             | None => 0
                             | Some i => S i
                             end]) as Hpresent.
  { intros v. rewrite cells_snoc. simpl. do 2 f_equal.
    destruct (last G) as [t|] eqn:E.
    - apply last_Some in E as [init ->].
      apply Forall_app in HG as [_ Ht]. rewrite Forall_singleton in Ht.
      rewrite last_cells_snoc by done. rewrite length_app. simpl. lia.
    - apply last_None in E as ->. done. }
  destruct x as [[|a v]|]; simpl.
  - rewrite Habsent. by destruct (last (cells G)).
  - rewrite Hpresent. by destruct (last (cells G)).
  - rewrite Habsent. by destruct (last (cells G)).
Qed.

(** Adding a source cell extends the column texts by one column. *)
Lemma column_texts_absorb table_words G x w :
  Forall (λ t, 1 ≤ grid_span t) G →
  column_texts (absorb table_words G (x, w)) = shown_step (column_texts G) x.
Proof.
  intros HG. unfold column_texts at 1.
  rewrite cells_absorb by done.
  unfold covering_step, shown_step. rewrite fmap_app.
  unfold absorb. cbn [fst snd].
  assert (∀ j, j ∈ cells G → j < length G) as Hbound.
  { intros j Hj. apply cells_from_bound in Hj. lia. }
  destruct (last G) as [t|] eqn:E.
  - apply last_Some in E as [init ->].
    apply Forall_app in HG as [_ Ht]. rewrite Forall_singleton in Ht.
    rewrite last_cells_snoc by done.
    assert (last (column_texts (init ++ [t])) = Some (cell_text t)) as Hlast.
    { unfold column_texts. rewrite fmap_last, last_cells_snoc by done.
      simpl. by rewrite list_lookup_middle. }
    rewrite Hlast. rewrite length_app in Hbound. simpl in Hbound.
    destruct x as [[|a v]|]; simpl.
    + f_equal.
      * apply Forall_fmap_ext, Forall_forall. intros j Hj.
        rewrite removelast_last.
        destruct (decide (j = length init)) as [->|Hne].
        -- by rewrite !list_lookup_middle.
        -- apply Hbound in Hj.
           rewrite !lookup_app_l by lia. done.
      * rewrite removelast_last. by rewrite list_lookup_middle.
    + f_equal.
      * apply Forall_fmap_ext, Forall_forall. intros j Hj.
        apply Hbound in Hj.
        rewrite lookup_app_l by (rewrite length_app; simpl; lia). done.
      * rewrite lookup_app_r by (rewrite length_app; simpl; lia).
        rewrite length_app. simpl.
        replace (S (length init) - (length init + 1)) with 0 by lia.
        simpl. by rewrite cell_text_populated.
    + f_equal.
      * apply Forall_fmap_ext, Forall_forall. intros j Hj.
        rewrite removelast_last.
        destruct (decide (j = length init)) as [->|Hne].
        -- by rewrite !list_lookup_middle.
        -- apply Hbound in Hj.
           rewrite !lookup_app_l by lia. done.
      * rewrite removelast_last. by rewrite list_lookup_middle.
  - apply last_None in E as ->. simpl.
    destruct x as [[|a v]|]; simpl; try done.
    by rewrite cell_text_populated.
Qed.

Lemma foldl_absorb_layout table_words xs :
  ∀ ws G,
    length xs ≤ length ws →
    Forall (λ t, 1 ≤ grid_span t) G →
    cells (foldl (absorb table_words) G (zip xs ws))
      = foldl covering_step (cells G) xs
    ∧ column_texts (foldl (absorb table_words) G (zip xs ws))
      = foldl shown_step (column_texts G) xs.
Proof.
  induction xs as [|x xs IH]; intros ws G Hlen HG; [done|].
  destruct ws as [|w ws]; simpl in Hlen; [lia|].
  cbn [zip_with foldl].
  rewrite <- cells_absorb with (table_words := table_words) (w := w) by done.
  rewrite <- column_texts_absorb with (table_words := table_words) (w := w)
    by done.
  apply IH; [lia | by apply absorb_spans].
Qed.

(** A built row covers its columns and shows its texts as the source row
    prescribes. *)
Lemma visual_row_layout table_words col_widths src :
  length src ≤ length col_widths →
  cells (visual_row table_words col_widths src) = covering src
  ∧ column_texts (visual_row table_words col_widths src) = shown_texts src.
Proof.
  intros Hlen. by apply (foldl_absorb_layout table_words src col_widths []).
Qed.

Lemma Forall2_map_diag {A B} (P : A → B → Prop) (f : A → B) (l : list A) :
  Forall (λ x, P x (f x)) l → Forall2 P l (map f l).
Proof. induction 1; simpl; by constructor. Qed.

(** ** Column widths *)

(** The column loop raises the width error only at a column without a
    width. *)
Lemma cell_step_raise_col_widths (table : grid) (table_words : list word)
  col_widths r st c :
  cell_step table table_words col_widths r st c = Raise (IndexError ColWidths) →
  col_widths !! c = None.
Proof.
  unfold cell_step. destruct st as [wt mc].
  destruct (table !! r ≫= (.!! c)) as [raw|]; simpl; [|done].
  destruct (wt !! r) as [row|]; simpl; [|done].
  destruct (py_get (cells row) (Z.of_nat c)) as [cell|]; simpl; [|done].
  destruct (col_widths !! c) as [w|]; simpl; [|done].
  destruct (truthy_or_none raw); [done|].
  destruct (0 <? c); [|done].
  by destruct (py_get _ _).
Qed.

Lemma cell_step_no_width (table : grid) (table_words : list word)
    col_widths r wt mc k
    src x G w0 rest :
  table !! r = Some src → src !! k = Some x → col_widths !! k = None →
  wt !! r = Some (G ++ new_tc w0 :: rest) →
  total_span G = k →
  cell_step table table_words col_widths r (wt, mc) k
  = Raise (IndexError ColWidths).
Proof.
  intros Htab Hsrc Hcw Hwt <-.
  unfold cell_step. rewrite Htab. simpl. rewrite Hsrc. simpl.
  rewrite Hwt. simpl.
  rewrite cells_lookup_next by (simpl; lia). simpl.
  by rewrite Hcw.
Qed.

(** With fewer widths than columns the first row already fails. *)
Lemma add_table_to_doc_too_few_widths doc row0 rest
  (table_words : list word) col_widths :
  length col_widths < length row0 →
  add_table_to_doc doc (row0 :: rest) table_words col_widths
  = Raise (IndexError ColWidths).
Proof.
  intros Hlt. unfold add_table_to_doc, new_rows.
  set (w0 := stored_width
               (if 0 <? length row0
                then (block_width doc / Z.of_nat (length row0))%Z
                else 0%Z)).
  set (n := length col_widths).
  set (wt := replicate (length (row0 :: rest))
               (replicate (length row0) (new_tc w0))).
  assert (for_each (row_step (row0 :: rest) table_words col_widths
                      (length row0)) wt (seq 0 (length (row0 :: rest)))
          = Raise (IndexError ColWidths)) as ->; [|done].
  assert (row_step (row0 :: rest) table_words col_widths (length row0) wt 0
          = Raise (IndexError ColWidths)) as Hrow.
  { unfold row_step.
    replace (length row0) with (n + S (length row0 - S n)) at 1 by lia.
    rewrite seq_app, for_each_app. simpl seq.
    destruct (column_loop_absorb (row0 :: rest) table_words col_widths 0 row0
                w0 eq_refl n 0 [] wt 0%Z
                (replicate (S (length row0 - S n)) (new_tc w0)))
      as (mc' & -> & Hinv).
    - lia.
    - unfold n. lia.
    - rewrite app_nil_l, <- replicate_add.
      replace (n + S (length row0 - S n)) with (length row0) by lia. done.
    - apply row_inv_nil.
    - destruct (lookup_lt_is_Some_2 row0 n) as [x Hx]; [lia|].
      cbn [mbind result_bind for_each replicate].
      rewrite (cell_step_no_width (row0 :: rest) table_words col_widths 0 _ mc'
                 n row0 x
                 (foldl (absorb table_words) []
                    (zip (take n (drop 0 row0)) (drop 0 col_widths)))
                 w0 (replicate (length row0 - S n) (new_tc w0))); try done.
      + by apply lookup_ge_None_2.
      + by destruct Hinv as [? _]. }
  simpl seq. cbn [for_each]. by rewrite Hrow.
Qed.

Lemma add_table_to_doc_enough_widths doc (table : grid)
  (table_words : list word) col_widths :
  (∀ row0, head table = Some row0 → length row0 ≤ length col_widths) →
  add_table_to_doc doc table table_words col_widths
  ≠ Raise (IndexError ColWidths).
Proof.
  intros Hcols. unfold add_table_to_doc.
  destruct table as [|row0 rest]; [done|].
  specialize (Hcols row0 eq_refl).
  destruct (for_each _ _ _) as [wt|e] eqn:E; [done|].
  simpl. intros [= ->].
  apply for_each_raise in E as (wt & r & _ & E).
  unfold row_step in E.
  destruct (for_each _ _ (seq 0 (length row0))) as [st|e] eqn:E'; [done|].
  simpl in E. injection E as ->.
  apply for_each_raise in E' as (st & c & Hc & E').
  apply cell_step_raise_col_widths in E'.
  apply elem_of_seq in Hc. apply lookup_ge_None_1 in E'. lia.
Qed.

(** ** Absent and empty source cells *)

Lemma truthy_or_none_falsy x y :
  same_or_falsy x y → truthy_or_none x = truthy_or_none y.
Proof.
  intros [->|[Hx Hy]]; [done|]. by destruct Hx, Hy.
Qed.

Lemma for_each_ext {S A} (f g : S → A → result S) l :
  (∀ s a, f s a = g s a) → ∀ s, for_each f s l = for_each g s l.
Proof.
  intros Hfg. induction l as [|a l IH]; intros s; simpl; [done|].
  rewrite Hfg. destruct (g s a); simpl; [apply IH | done].
Qed.

Lemma cell_step_falsy (t1 t2 : grid) (table_words : list word)
  col_widths r st c :
  Forall2 (Forall2 same_or_falsy) t1 t2 →
  cell_step t1 table_words col_widths r st c
  = cell_step t2 table_words col_widths r st c.
Proof.
  intros Hsame. unfold cell_step. destruct st as [wt mc].
  pose proof (proj1 (Forall2_lookup _ _ _) Hsame r) as Hr.
  destruct Hr as [row1 row2 Hrow|]; simpl; [|done].
  pose proof (proj1 (Forall2_lookup _ _ _) Hrow c) as Hc.
  destruct Hc as [x y Hxy|]; simpl; [|done].
  by rewrite (truthy_or_none_falsy x y Hxy).
Qed.


(** ** The sample page *)

Example main_on_sample_page :
  ∃ doc t,
    main sample_open "sample.pdf" "report.docx"
    = {| effects := [Save "word_file3.docx" doc;
                     Print "Word document saved: report.docx"];
         raised := None |}
    ∧ body doc
      = [ BParagraph
            {| p_alignment := Some CENTER;
               p_runs := [ {| run_text := "TITLE "; run_bold := Some true;
                              run_size := Some 139700%Z;
                              run_name := Some "Times New Roman"%string |} ]
            |};
          BParagraph
            {| p_alignment := Some LEFT;
               p_runs := [ {| run_text := "Body "; run_bold := Some false;
                              run_size := Some 139700%Z;
                              run_name := Some "Times New Roman"%string |};
                           {| run_text := "text "; run_bold := Some false;
                              run_size := Some 139700%Z;
                              run_name := Some "Times New Roman"%string |} ]
            |};
          BTable t;
          BParagraph empty_paragraph ]
    ∧ map cells (t_rows t) = [[0; 1]; [0; 0]]
    ∧ map column_texts (t_rows t) = [["H1"; "H2"]; ["v1"; "v1"]]%string.
Proof. do 2 eexists. vm_compute. split_and!; reflexivity. Qed.

Example main_on_missing_file :
  main sample_open "other.pdf" "report.docx"
  = {| effects := []; raised := Some ExtractionError |}.
Proof. reflexivity. Qed.

(** * Further properties of the program *)

(** ** The outcome of the table builder *)

Lemma cell_step_no_source (table : grid) (table_words : list word)
  col_widths r st c src :
  table !! r = Some src → src !! c = None →
  cell_step table table_words col_widths r st c
  = Raise (IndexError TableCell).
Proof.
  intros Htab Hsrc. unfold cell_step. destruct st as [wt mc].
  rewrite Htab. cbn [mbind option_bind]. by rewrite Hsrc.
Qed.

(** A row with fewer cells than the first one stops the column loop at its
    end, on the read of the source cell. *)
Lemma row_step_short (table : grid) (table_words : list word)
  col_widths cols r src wt w0 :
  table !! r = Some src →
  length src < cols → cols ≤ length col_widths →
  wt !! r = Some (replicate cols (new_tc w0)) →
  row_step table table_words col_widths cols wt r
  = Raise (IndexError TableCell).
Proof.
  intros Htab Hshort Hcw Hwt. unfold row_step.
  replace cols with (length src + S (cols - S (length src))) at 1 by lia.
  rewrite seq_app, for_each_app. simpl seq.
  destruct (column_loop_absorb table table_words col_widths r src w0 Htab
              (length src) 0 [] wt 0%Z
              (replicate (S (cols - S (length src))) (new_tc w0)))
    as (mc' & -> & _).
  - lia.
  - lia.
  - rewrite app_nil_l, <- replicate_add.
    replace (length src + S (cols - S (length src))) with cols by lia. done.
  - apply row_inv_nil.
  - cbn [mbind result_bind for_each].
    rewrite (cell_step_no_source table table_words col_widths r _ _ src Htab);
      [done|].
    by apply lookup_ge_None_2.
Qed.

(** The row loop over the untouched rows: it completes when every
    remaining row is long enough and otherwise stops at the first short
    one. *)
Lemma row_loop_outcome (table : grid) table_words col_widths cols w0 :
  cols ≤ length col_widths →
  ∀ m built,
    length built + m = length table →
    for_each (row_step table table_words col_widths cols)
      (built ++ replicate m (replicate cols (new_tc w0)))
      (seq (length built) m)
    = if forallb (λ src, cols <=? length src) (drop (length built) table)
      then Ok (built
               ++ map (λ src, visual_row table_words col_widths
                                (take cols src))
                      (drop (length built) table))
      else Raise (IndexError TableCell).
Proof.
  intros Hcw. induction m as [|m IH]; intros built Hlen.
  - simpl. rewrite drop_ge by lia. done.
  - destruct (lookup_lt_is_Some_2 table (length built)) as [src Hsrc]; [lia|].
    rewrite (drop_S _ _ _ Hsrc). cbn [forallb replicate seq map].
    destruct (cols <=? length src) eqn:Hlong.
    + apply Nat.leb_le in Hlong.
      rewrite (for_each_cons_ok _ _
                 (built ++ visual_row table_words col_widths (take cols src)
                        :: replicate m (replicate cols (new_tc w0)))).
      * rewrite (cons_middle (visual_row _ _ _)), app_assoc.
        replace (S (length built))
          with (length (built ++ [visual_row table_words col_widths
                                    (take cols src)]))
          by (rewrite length_app; simpl; lia).
        rewrite IH by (rewrite length_app; simpl; lia).
        rewrite length_app. simpl. rewrite Nat.add_1_r.
        destruct (forallb _ _); [|done].
        by rewrite <- app_assoc.
      * rewrite (row_step_visual table table_words col_widths cols
                   (length built) src _ w0 Hsrc Hlong Hcw).
        -- rewrite <- (Nat.add_0_r (length built)) at 1.
           by rewrite insert_app_r.
        -- by apply list_lookup_middle.
    + apply Nat.leb_gt in Hlong. cbn [for_each andb].
      rewrite (row_step_short table table_words col_widths cols
                 (length built) src _ w0 Hsrc Hlong Hcw); [done|].
      by apply list_lookup_middle.
Qed.

(** The table builder on a grid with at least one row, by the shape of its
    input. *)
Lemma add_table_to_doc_cases
  (doc : Document) (row0 : list (option string)) (rest : grid)
  (table_words : list word) (col_widths : list Z) :
  add_table_to_doc doc (row0 :: rest) table_words col_widths
  = if length col_widths <? length row0
    then Raise (IndexError ColWidths)
    else if forallb (λ src, length row0 <=? length src) rest
    then Ok (append_block
               (append_block doc
                  (BTable {| t_style := Some "Table Grid"%string;
                             t_rows :=
                               map (λ src, visual_row table_words col_widths
                                             (take (length row0) src))
                                   (row0 :: rest) |}))
               (BParagraph empty_paragraph))
    else Raise (IndexError TableCell).
Proof.
  destruct (length col_widths <? length row0) eqn:Hw.
  - apply Nat.ltb_lt in Hw. by apply add_table_to_doc_too_few_widths.
  - apply Nat.ltb_ge in Hw. unfold add_table_to_doc, new_rows.
    pose proof (row_loop_outcome (row0 :: rest) table_words col_widths
                  (length row0)
                  (stored_width
                     (if 0 <? length row0
                      then (block_width doc / Z.of_nat (length row0))%Z
                      else 0%Z))
                  Hw (length (row0 :: rest)) [] eq_refl) as Hloop.
    cbn [length app drop forallb] in Hloop.
    rewrite Nat.leb_refl in Hloop. cbn [andb] in Hloop.
    cbn [length]. rewrite Hloop.
    by destruct (forallb _ rest).
Qed.

(** X1.  What the outcome of the table builder on a grid with at least
    one row says about the shape of the grid.  A call that completes had a
    width for every column and no row shorter than the first one.  A call
    that raises the index error on the grid had a width for every column
    and a row shorter than the first one.  No call raises an index error
    on [row.cells]: the index there, the merge counter included, is never
    out of range. *)
Theorem table_builder_outcome_by_shape
  (doc : Document) (row0 : list (option string)) (rest : grid)
  (table_words : list word) (col_widths : list Z) :
  let res :=
    add_table_to_doc doc (row0 :: rest) table_words col_widths in
  (∀ doc', res = Ok doc' →
           length row0 ≤ length col_widths
           ∧ Forall (λ src, length row0 ≤ length src) rest)
  ∧ (res = Raise (IndexError TableCell) →
     length row0 ≤ length col_widths
     ∧ Exists (λ src, length src < length row0) rest)
  ∧ res ≠ Raise (IndexError DocCells).
Proof.
  intros res. unfold res. rewrite add_table_to_doc_cases.
  assert (forallb (λ src, length row0 <=? length src) rest = true
          ↔ Forall (λ src, length row0 ≤ length src) rest) as Hforall.
  { rewrite forallb_forall, Forall_forall. split; intros H src Hsrc.
    - apply Nat.leb_le, H. by apply list_elem_of_In.
    - apply Nat.leb_le, H. by apply list_elem_of_In. }
  assert (forallb (λ src, length row0 <=? length src) rest = false
          ↔ Exists (λ src, length src < length row0) rest) as Hexists.
  { rewrite <- not_true_iff_false, Hforall, <- Exists_Forall_neg.
    - split; intros H; (eapply Exists_impl; [exact H|]);
        intros src; simpl; lia.
    - intros src. destruct (decide (length row0 ≤ length src)); auto. }
  destruct (length col_widths <? length row0) eqn:Hw; [done|].
  apply Nat.ltb_ge in Hw.
  destruct (forallb (λ src, length row0 <=? length src) rest) eqn:Hrows.
  - split_and!; [|done|done].
    intros doc' _. split; [done|]. by apply Hforall.
  - split_and!; [done| |done].
    intros _. split; [done|]. by apply Hexists.
Qed.

Lemma table_builder_outcome_by_shape_witness :
  let ragged := [[Some "H1"; Some "H2"]; [Some "v1"]]%string in
  add_table_to_doc create_word ragged ([] : list word) [1; 3; 15]%Z
  = Raise (IndexError TableCell)
  ∧ Exists (λ src : list (option string), length src < 2)
           [[Some "v1"]]%string.
Proof.
  intros ragged.
  assert (add_table_to_doc create_word ragged ([] : list word) [1; 3; 15]%Z
          = Raise (IndexError TableCell)) as H by reflexivity.
  split; [exact H|].
  exact (proj2 (proj1 (proj2 (table_builder_outcome_by_shape create_word
                                [Some "H1"; Some "H2"]%string
                                [[Some "v1"]]%string [] [1; 3; 15]%Z))
                  H)).
Defined.

(** ** Reading a built row column by column *)

(** [covering] and [shown_texts] both extend a list by one entry per
    source cell, computed from the previous entry. *)
Section Scan.

Context {A B : Type}.
Variable g : option B → A → B.
Variable step : list B → A → list B.
Hypothesis step_snoc : ∀ acc x, step acc x = acc ++ [g (last acc) x].

Lemma scan_snoc src x :
  foldl step [] (src ++ [x])
  = foldl step [] src ++ [g (last (foldl step [] src)) x].
Proof. by rewrite foldl_snoc, step_snoc. Qed.

Lemma scan_length src : length (foldl step [] src) = length src.
Proof.
  induction src as [|x src IH] using rev_ind; [done|].
  rewrite scan_snoc, !length_app, IH. done.
Qed.

Lemma scan_lookup src c x :
  src !! c = Some x →
  foldl step [] src !! c
  = Some (g match c with
            | 0 => None
            | S c' => foldl step [] src !! c'
            end x).
Proof.
  revert c x. induction src as [|y src IH] using rev_ind; intros c x Hc.
  - done.
  - rewrite scan_snoc.
    destruct (decide (c < length src)) as [Hlt|Hge].
    + rewrite lookup_app_l in Hc by done.
      rewrite lookup_app_l by (rewrite scan_length; done).
      rewrite (IH c x Hc). destruct c as [|c']; [done|].
      rewrite lookup_app_l by (rewrite scan_length; lia). done.
    + assert (c = length src) as ->.
      { apply lookup_lt_Some in Hc. rewrite length_app in Hc. simpl in Hc.
        lia. }
      rewrite list_lookup_middle in Hc by done. injection Hc as ->.
      rewrite list_lookup_middle by (by rewrite scan_length).
      do 2 f_equal. rewrite last_lookup, scan_length.
      destruct (length src) as [|n] eqn:E.
      * apply nil_length_inv in E as ->. done.
      * simpl. rewrite lookup_app_l by (rewrite scan_length; lia). done.
Qed.

End Scan.

Lemma covering_step_snoc acc x :
  covering_step acc x
  = acc ++ [ match last acc, present_value x with
             | None, _ => 0
             | Some i, Some _ => S i
             | Some i, None => i
             end ].
Proof. reflexivity. Qed.

Lemma shown_step_snoc acc x :
  shown_step acc x
  = acc ++ [ match present_value x with
             | Some v => v
             | None => default EmptyString (last acc)
             end ].
Proof. reflexivity. Qed.

Lemma length_covering src : length (covering src) = length src.
Proof.
  apply (scan_length (λ prev x, match prev, present_value x with
                                | None, _ => 0
                                | Some i, Some _ => S i
                                | Some i, None => i
                                end) covering_step covering_step_snoc).
Qed.

Lemma length_shown_texts src : length (shown_texts src) = length src.
Proof.
  apply (scan_length (λ prev x, match present_value x with
                                | Some v => v
                                | None => default EmptyString prev
                                end) shown_step shown_step_snoc).
Qed.

(** The visual cell of a column, from the one of its left neighbour. *)
Lemma covering_lookup src c x :
  src !! c = Some x →
  covering src !! c
  = Some match c with
         | 0 => 0
         | S c' => match covering src !! c', present_value x with
                   | None, _ => 0
                   | Some i, Some _ => S i
                   | Some i, None => i
                   end
         end.
Proof.
  intros Hc. unfold covering.
  rewrite (scan_lookup (λ prev x, match prev, present_value x with
                                  | None, _ => 0
                                  | Some i, Some _ => S i
                                  | Some i, None => i
                                  end) covering_step covering_step_snoc
             src c x Hc).
  by destruct c.
Qed.

(** The text of a column, from the one of its left neighbour. *)
Lemma shown_texts_lookup src c x :
  src !! c = Some x →
  shown_texts src !! c
  = Some match present_value x with
         | Some v => v
         | None => match c with
                   | 0 => EmptyString
                   | S c' => default EmptyString (shown_texts src !! c')
                   end
         end.
Proof.
  intros Hc. unfold shown_texts.
  rewrite (scan_lookup (λ prev x, match present_value x with
                                  | Some v => v
                                  | None => default EmptyString prev
                                  end) shown_step shown_step_snoc
             src c x Hc).
  by destruct c.
Qed.

(** A completed call of the table builder, read backwards. *)
Lemma add_table_to_doc_ok doc row0 rest table_words col_widths doc' :
  add_table_to_doc doc (row0 :: rest) table_words col_widths = Ok doc' →
  length row0 ≤ length col_widths
  ∧ Forall (λ src, length row0 ≤ length src) (row0 :: rest)
  ∧ doc' = append_block
             (append_block doc
                (BTable {| t_style := Some "Table Grid"%string;
                           t_rows :=
                             map (λ src, visual_row table_words col_widths
                                           (take (length row0) src))
                                 (row0 :: rest) |}))
             (BParagraph empty_paragraph).
Proof.
  intros Hrun.
  destruct (decide (length col_widths < length row0)) as [Hlt|Hge].
  { by rewrite add_table_to_doc_too_few_widths in Hrun. }
  assert (length row0 ≤ length col_widths) as Hcw by lia.
  destruct (forallb (λ src, length row0 <=? length src) (row0 :: rest))
    eqn:Hrows.
  - assert (Forall (λ src, length row0 ≤ length src) (row0 :: rest)) as Hall.
    { apply Forall_forall. intros src Hsrc.
      rewrite forallb_forall in Hrows.
      apply Nat.leb_le, Hrows. by apply list_elem_of_In. }
    split; [done|]. split; [done|].
    inversion Hall as [|? ? _ Hrest]; subst.
    rewrite add_table_to_doc_visual in Hrun by done. by injection Hrun.
  - exfalso. unfold add_table_to_doc, new_rows in Hrun.
    pose proof (row_loop_outcome (row0 :: rest) table_words col_widths
                  (length row0)
                  (stored_width
                     (if 0 <? length row0
                      then (block_width doc / Z.of_nat (length row0))%Z
                      else 0%Z))
                  Hcw (length (row0 :: rest)) [] eq_refl) as Hloop.
    cbn [length app drop] in Hloop. rewrite Hrows in Hloop.
    cbn [length] in Hrun. by rewrite Hloop in Hrun.
Qed.

(** X2.  A completed call on a grid with at least one row appends exactly
    a table and an empty paragraph and leaves the rest of the document as
    it was.  The table has the style "Table Grid" and one row per grid
    row, and every row still covers as many grid columns as the first grid
    row has cells, whatever was merged. *)
Theorem built_table_keeps_rows_and_columns
  (doc doc' : Document) (row0 : list (option string)) (rest : grid)
  (table_words : list word) (col_widths : list Z) :
  add_table_to_doc doc (row0 :: rest) table_words col_widths = Ok doc' →
  ∃ t, doc' = append_block (append_block doc (BTable t))
                (BParagraph empty_paragraph)
       ∧ t_style t = Some "Table Grid"%string
       ∧ length (t_rows t) = length (row0 :: rest)
       ∧ Forall (λ row, length (cells row) = length row0
                        ∧ total_span row = length row0) (t_rows t).
Proof.
  intros Hrun.
  destruct (add_table_to_doc_ok _ _ _ _ _ _ Hrun) as (Hcw & Hrows & ->).
  eexists. split; [reflexivity|]. split; [reflexivity|].
  cbn [t_rows]. split; [by rewrite length_map|].
  apply Forall_forall. intros row Hrow.
  apply list_elem_of_In, in_map_iff in Hrow as (src & <- & Hsrc).
  apply list_elem_of_In in Hsrc.
  rewrite Forall_forall in Hrows. specialize (Hrows src Hsrc).
  assert (length (cells (visual_row table_words col_widths
                           (take (length row0) src))) = length row0) as Hc.
  { assert (length (take (length row0) src) ≤ length col_widths) as Hlen
      by (rewrite length_take; lia).
    rewrite (proj1 (visual_row_layout table_words _ _ Hlen)).
    rewrite length_covering, length_take. lia. }
  split; [done|]. unfold cells in Hc. by rewrite length_cells_from in Hc.
Qed.

Lemma built_table_keeps_rows_and_columns_witness :
  let table := [[Some "H1"; Some "H2"]; [Some "v1"; None]]%string in
  ∃ doc',
    add_table_to_doc create_word table ([] : list word) [1; 3; 15]%Z = Ok doc'
    ∧ ∃ t, doc' = append_block (append_block create_word (BTable t))
                    (BParagraph empty_paragraph)
           ∧ length (t_rows t) = 2
           ∧ Forall (λ row, length (cells row) = 2 ∧ total_span row = 2)
                    (t_rows t).
Proof.
  intros table. eexists. split; [reflexivity|].
  destruct (built_table_keeps_rows_and_columns create_word _
              [Some "H1"; Some "H2"]%string [[Some "v1"; None]]%string
              [] [1; 3; 15]%Z eq_refl) as (t & Hdoc & _ & Hlen & Hrows).
  exists t. split; [exact Hdoc|]. split; [exact Hlen | exact Hrows].
Defined.

(** The row built for a grid row, in a completed call. *)
Lemma built_row_lookup doc doc' row0 rest table_words col_widths r src :
  add_table_to_doc doc (row0 :: rest) table_words col_widths = Ok doc' →
  (row0 :: rest) !! r = Some src →
  ∃ t, doc' = append_block (append_block doc (BTable t))
                (BParagraph empty_paragraph)
       ∧ t_rows t !! r
         = Some (visual_row table_words col_widths (take (length row0) src))
       ∧ length row0 ≤ length src
       ∧ length row0 ≤ length col_widths.
Proof.
  intros Hrun Hsrc.
  destruct (add_table_to_doc_ok _ _ _ _ _ _ Hrun) as (Hcw & Hrows & ->).
  eexists. split; [reflexivity|]. cbn [t_rows].
  split; [|split; [|done]].
  - change (map ?f ?l) with (f <$> l). by rewrite list_lookup_fmap, Hsrc.
  - by apply (Forall_lookup_1 _ _ _ _ Hrows Hsrc).
Qed.

Lemma present_value_None_falsy x : present_value x = None ↔ falsy x.
Proof.
  split.
  - destruct x as [[|a v]|]; [constructor | done | constructor].
  - by intros [].
Qed.

(** X3.  In a completed call a present value always shows in its own
    column and opens a visual cell of its own: its column lies in cell 0
    when it is column 0 and otherwise in the cell after the one of its
    left neighbour.  No merge ever hides a present value. *)
Theorem present_value_shown_in_its_column
  (doc doc' : Document) (row0 : list (option string)) (rest : grid)
  (table_words : list word) (col_widths : list Z)
  (r c : nat) (src : list (option string)) (a : Ascii.ascii) (v : string) :
  add_table_to_doc doc (row0 :: rest) table_words col_widths = Ok doc' →
  (row0 :: rest) !! r = Some src →
  c < length row0 →
  src !! c = Some (Some (String a v)) →
  ∃ t row,
    doc' = append_block (append_block doc (BTable t))
             (BParagraph empty_paragraph)
    ∧ t_rows t !! r = Some row
    ∧ column_texts row !! c = Some (String a v)
    ∧ cells row !! c = match c with
                       | 0 => Some 0
                       | S c' => S <$> cells row !! c'
                       end.
Proof.
  intros Hrun Hsrc Hc Hval.
  destruct (built_row_lookup _ _ _ _ _ _ _ _ Hrun Hsrc)
    as (t & -> & Hrow & Hlen & Hcw).
  exists t, (visual_row table_words col_widths (take (length row0) src)).
  split; [done|]. split; [done|].
  assert (length (take (length row0) src) ≤ length col_widths) as Hlen'
    by (rewrite length_take; lia).
  destruct (visual_row_layout table_words _ _ Hlen') as [-> ->].
  assert (take (length row0) src !! c = Some (Some (String a v))) as Hval'
    by (rewrite lookup_take_lt by done; done).
  rewrite (shown_texts_lookup _ _ _ Hval'), (covering_lookup _ _ _ Hval').
  split; [done|]. destruct c as [|c']; [done|]. cbn [present_value].
  destruct (lookup_lt_is_Some_2 (covering (take (length row0) src)) c')
    as [i Hi].
  { rewrite length_covering, length_take. lia. }
  by rewrite Hi.
Qed.

Lemma present_value_shown_in_its_column_witness :
  ∃ doc' t row,
    add_table_to_doc create_word [[None; Some "A"; None; Some "B"]]%string
      ([] : list word) [1; 3; 15; 2]%Z = Ok doc'
    ∧ doc' = append_block (append_block create_word (BTable t))
               (BParagraph empty_paragraph)
    ∧ t_rows t !! 0 = Some row
    ∧ column_texts row !! 3 = Some "B"%string
    ∧ cells row !! 3 = S <$> cells row !! 2.
Proof.
  eexists.
  destruct (present_value_shown_in_its_column create_word _
              [None; Some "A"; None; Some "B"]%string [] ([] : list word)
              [1; 3; 15; 2]%Z
              0 3 [None; Some "A"; None; Some "B"]%string
              (Ascii.ascii_of_nat 66) EmptyString eq_refl eq_refl)
    as (t & row & Hdoc & Hrow & Htext & Hcell).
  - simpl. lia.
  - reflexivity.
  - exists t, row. split; [reflexivity|].
    split; [exact Hdoc|]. split; [exact Hrow|].
    split; [exact Htext | exact Hcell].
Defined.

(** X4.  In a completed call an absent or empty cell never has a visual
    cell or a text of its own: past column 0 its column lies in the same
    visual cell as its left neighbour and shows the same text, and in
    column 0 it is an empty cell. *)
Theorem absent_cell_shares_left_neighbour
  (doc doc' : Document) (row0 : list (option string)) (rest : grid)
  (table_words : list word) (col_widths : list Z)
  (r c : nat) (src : list (option string)) (x : option string) :
  add_table_to_doc doc (row0 :: rest) table_words col_widths = Ok doc' →
  (row0 :: rest) !! r = Some src →
  c < length row0 →
  src !! c = Some x →
  falsy x →
  ∃ t row,
    doc' = append_block (append_block doc (BTable t))
             (BParagraph empty_paragraph)
    ∧ t_rows t !! r = Some row
    ∧ match c with
      | 0 => cells row !! 0 = Some 0
             ∧ column_texts row !! 0 = Some EmptyString
      | S c' => cells row !! c = cells row !! c'
                ∧ column_texts row !! c = column_texts row !! c'
      end.
Proof.
  intros Hrun Hsrc Hc Hval Hfalsy.
  apply present_value_None_falsy in Hfalsy.
  destruct (built_row_lookup _ _ _ _ _ _ _ _ Hrun Hsrc)
    as (t & -> & Hrow & Hlen & Hcw).
  exists t, (visual_row table_words col_widths (take (length row0) src)).
  split; [done|]. split; [done|].
  assert (length (take (length row0) src) ≤ length col_widths) as Hlen'
    by (rewrite length_take; lia).
  destruct (visual_row_layout table_words _ _ Hlen') as [-> ->].
  assert (take (length row0) src !! c = Some x) as Hval'
    by (rewrite lookup_take_lt by done; done).
  pose proof (shown_texts_lookup _ _ _ Hval') as Htext.
  pose proof (covering_lookup _ _ _ Hval') as Hcell.
  rewrite Hfalsy in Htext, Hcell. destruct c as [|c']; [done|].
  destruct (lookup_lt_is_Some_2 (covering (take (length row0) src)) c')
    as [i Hi].
  { rewrite length_covering, length_take. lia. }
  destruct (lookup_lt_is_Some_2 (shown_texts (take (length row0) src)) c')
    as [s Hs].
  { rewrite length_shown_texts, length_take. lia. }
  rewrite Hi in Hcell. rewrite Hs in Htext.
  by rewrite Hcell, Htext, Hi, Hs.
Qed.

Lemma absent_cell_shares_left_neighbour_witness :
  ∃ doc' t row,
    add_table_to_doc create_word [[Some "v1"; None]]%string
      ([] : list word) [1; 3; 15]%Z = Ok doc'
    ∧ doc' = append_block (append_block create_word (BTable t))
               (BParagraph empty_paragraph)
    ∧ t_rows t !! 0 = Some row
    ∧ cells row !! 1 = cells row !! 0
    ∧ column_texts row !! 1 = column_texts row !! 0.
Proof.
  eexists.
  destruct (absent_cell_shares_left_neighbour create_word _
              [Some "v1"; None]%string [] ([] : list word) [1; 3; 15]%Z
              0 1 [Some "v1"; None]%string None eq_refl eq_refl)
    as (t & row & Hdoc & Hrow & Hcell & Htext).
  - simpl. lia.
  - reflexivity.
  - constructor.
  - exists t, row. split; [reflexivity|].
    split; [exact Hdoc|]. split; [exact Hrow|].
    split; [exact Hcell | exact Htext].
Defined.

(** ** Rows without merges, rows that are one merge *)

Lemma absorb_present table_words G a v w :
  absorb table_words G (Some (String a v), w)
  = G ++ [populated_tc table_words w (String a v)].
Proof. reflexivity. Qed.

Lemma absorb_falsy table_words G x w :
  falsy x →
  absorb table_words G (x, w)
  = match last G with
    | None => [new_tc (stored_width (Cm w))]
    | Some t => removelast G ++ [widen t w]
    end.
Proof. by intros []. Qed.

Lemma not_falsy_present x :
  ¬ falsy x → ∃ a v, x = Some (String a v).
Proof.
  destruct x as [[|a v]|]; intros H.
  - destruct H. constructor.
  - by exists a, v.
  - destruct H. constructor.
Qed.

Lemma foldl_absorb_all_present table_words xs :
  ∀ ws G,
    length xs ≤ length ws →
    Forall (λ x, ¬ falsy x) xs →
    foldl (absorb table_words) G (zip xs ws)
    = G ++ zip_with (λ x w, populated_tc table_words w (default EmptyString x))
             xs ws.
Proof.
  induction xs as [|x xs IH]; intros ws G Hlen Hall.
  - by rewrite app_nil_r.
  - destruct ws as [|w ws]; simpl in Hlen; [lia|].
    inversion Hall as [|? ? Hx Hxs]; subst.
    destruct (not_falsy_present x Hx) as (a & v & ->).
    cbn [zip_with foldl]. rewrite absorb_present, IH by (done || lia).
    by rewrite <- app_assoc.
Qed.

Lemma zip_with_populated table_words xs :
  ∀ ws,
    length xs ≤ length ws →
    let row := zip_with (λ x w, populated_tc table_words w
                                  (default EmptyString x)) xs ws in
    length row = length xs
    ∧ Forall (λ t, grid_span t = 1) row
    ∧ map cell_text row = map (default EmptyString) xs
    ∧ map tc_width row
      = map (λ w, stored_width (Cm w)) (take (length xs) ws).
Proof.
  induction xs as [|x xs IH]; intros ws Hlen; [done|].
  destruct ws as [|w ws]; simpl in Hlen; [lia|].
  destruct (IH ws ltac:(lia)) as (H1 & H2 & H3 & H4).
  cbn [zip_with length map take]. split_and!.
  - by rewrite H1.
  - by constructor.
  - by rewrite cell_text_populated, H3.
  - by rewrite H4.
Qed.

(** X5.  A grid row without absent or empty cells is reproduced cell by
    cell: as many cells as columns, none of them merged, each showing the
    text of its source cell.  The width of a cell is the width given for
    its column as the document stores it, in whole twips: the widths 1
    and 3 cm are read back as 360045 and 1080135 EMU. *)
Theorem fully_populated_row_reproduced
  (doc doc' : Document) (row0 : list (option string)) (rest : grid)
  (table_words : list word) (col_widths : list Z)
  (r : nat) (src : list (option string)) :
  add_table_to_doc doc (row0 :: rest) table_words col_widths = Ok doc' →
  (row0 :: rest) !! r = Some src →
  Forall (λ x, ¬ falsy x) (take (length row0) src) →
  ∃ t row,
    doc' = append_block (append_block doc (BTable t))
             (BParagraph empty_paragraph)
    ∧ t_rows t !! r = Some row
    ∧ length row = length row0
    ∧ Forall (λ t, grid_span t = 1) row
    ∧ map cell_text row
      = map (default EmptyString) (take (length row0) src)
    ∧ map tc_width row
      = map (λ w, Twips (twips (Cm w))) (take (length row0) col_widths).
Proof.
  intros Hrun Hsrc Hall.
  destruct (built_row_lookup _ _ _ _ _ _ _ _ Hrun Hsrc)
    as (t & -> & Hrow & Hlen & Hcw).
  exists t, (visual_row table_words col_widths (take (length row0) src)).
  split; [done|]. split; [done|].
  assert (length (take (length row0) src) = length row0) as Htake
    by (rewrite length_take; lia).
  unfold visual_row.
  rewrite foldl_absorb_all_present by (done || lia). rewrite app_nil_l.
  destruct (zip_with_populated table_words (take (length row0) src)
              col_widths ltac:(lia)) as (H1 & H2 & H3 & H4).
  rewrite Htake in H1, H4. done.
Qed.

Lemma fully_populated_row_reproduced_witness :
  ∃ doc' t row,
    add_table_to_doc create_word
      [[Some "H1"; Some "H2"]; [Some "v1"; None]]%string
      ([] : list word) [1; 3; 15]%Z
    = Ok doc'
    ∧ doc' = append_block (append_block create_word (BTable t))
               (BParagraph empty_paragraph)
    ∧ t_rows t !! 0 = Some row
    ∧ length row = 2
    ∧ map cell_text row = ["H1"; "H2"]%string
    ∧ map tc_width row = [360045; 1080135]%Z.
Proof.
  eexists.
  destruct (fully_populated_row_reproduced create_word _
              [Some "H1"; Some "H2"]%string [[Some "v1"; None]]%string
              [] [1; 3; 15]%Z 0 [Some "H1"; Some "H2"]%string
              eq_refl eq_refl)
    as (t & row & Hdoc & Hrow & Hlen & _ & Htext & Hwidth).
  - repeat constructor; inversion 1.
  - exists t, row. split; [reflexivity|].
    split; [exact Hdoc|]. split; [exact Hrow|]. split; [exact Hlen|].
    split; [exact Htext | exact Hwidth].
Defined.

Lemma foldl_absorb_all_falsy table_words xs :
  ∀ ws t,
    length xs ≤ length ws →
    Forall falsy xs →
    ∃ w', foldl (absorb table_words) [t] (zip xs ws)
          = [ {| tc_width := w';
                 grid_span := grid_span t + length xs;
                 tc_paragraphs := tc_paragraphs t |} ].
Proof.
  induction xs as [|x xs IH]; intros ws t Hlen Hall.
  - exists (tc_width t). simpl. rewrite Nat.add_0_r. by destruct t.
  - destruct ws as [|w ws]; simpl in Hlen; [lia|].
    inversion Hall as [|? ? Hx Hxs]; subst.
    cbn [zip_with foldl]. rewrite (absorb_falsy _ _ _ _ Hx). simpl.
    destruct (IH ws (widen t w) ltac:(lia) Hxs) as (w' & ->).
    exists w'. simpl. do 2 f_equal. lia.
Qed.

(** X6.  A grid row of only absent or empty cells becomes a single empty
    cell that spans all columns of the table. *)
Theorem all_absent_row_is_one_empty_cell
  (doc doc' : Document) (row0 : list (option string)) (rest : grid)
  (table_words : list word) (col_widths : list Z)
  (r : nat) (src : list (option string)) :
  add_table_to_doc doc (row0 :: rest) table_words col_widths = Ok doc' →
  (row0 :: rest) !! r = Some src →
  0 < length row0 →
  Forall falsy (take (length row0) src) →
  ∃ t w,
    doc' = append_block (append_block doc (BTable t))
             (BParagraph empty_paragraph)
    ∧ t_rows t !! r
      = Some [ {| tc_width := w;
                  grid_span := length row0;
                  tc_paragraphs := [empty_paragraph] |} ].
Proof.
  intros Hrun Hsrc Hpos Hall.
  destruct (built_row_lookup _ _ _ _ _ _ _ _ Hrun Hsrc)
    as (t & -> & Hrow & Hlen & Hcw).
  assert (length (take (length row0) src) = length row0) as Htake
    by (rewrite length_take; lia).
  destruct (take (length row0) src) as [|x xs] eqn:E; simpl in Htake; [lia|].
  destruct col_widths as [|w ws]; simpl in Hcw; [lia|].
  inversion Hall as [|? ? Hx Hxs]; subst.
  unfold visual_row in Hrow. cbn [zip_with foldl] in Hrow.
  rewrite (absorb_falsy _ _ _ _ Hx) in Hrow. simpl in Hrow.
  destruct (foldl_absorb_all_falsy table_words xs ws
              (new_tc (stored_width (Cm w)))
              ltac:(lia) Hxs) as (w' & Hfold).
  rewrite Hfold in Hrow. simpl in Hrow.
  exists t, w'. split; [done|]. by rewrite Hrow, <- Htake.
Qed.

Lemma all_absent_row_is_one_empty_cell_witness :
  ∃ doc' t w,
    add_table_to_doc create_word
      [[Some "H1"; Some "H2"]; [None; Some EmptyString]]%string
      ([] : list word) [1; 3; 15]%Z
    = Ok doc'
    ∧ doc' = append_block (append_block create_word (BTable t))
               (BParagraph empty_paragraph)
    ∧ t_rows t !! 1
      = Some [ {| tc_width := w; grid_span := 2;
                  tc_paragraphs := [empty_paragraph] |} ].
Proof.
  eexists.
  destruct (all_absent_row_is_one_empty_cell create_word _
              [Some "H1"; Some "H2"]%string
              [[None; Some EmptyString]]%string
              [] [1; 3; 15]%Z 1 [None; Some EmptyString]%string
              eq_refl eq_refl)
    as (t & w & Hdoc & Hrow).
  - simpl. lia.
  - repeat constructor.
  - exists t, w. split; [reflexivity|]. split; [exact Hdoc | exact Hrow].
Defined.

(** ** Widths and content of the built cells *)

Lemma row_width_snoc G t : row_width (G ++ [t]) = (row_width G + tc_width t)%Z.
Proof.
  unfold row_width. induction G as [|u G IH]; simpl; [lia|].
  rewrite IH. lia.
Qed.

(** Writing a whole number of twips stores it unchanged. *)
Lemma twips_Twips k : twips (Twips k) = k.
Proof.
  unfold twips, Twips. rewrite Z.div_mul, Z.mod_mul by lia. done.
Qed.

Lemma stored_width_Twips k : stored_width (Twips k) = Twips k.
Proof. unfold stored_width. by rewrite twips_Twips. Qed.

Lemma twips_Cm_pos w : (0 < w)%Z → (0 < twips (Cm w))%Z.
Proof.
  intros Hw. unfold twips, Cm.
  assert (0 < w * 360000 / 635)%Z by (apply Z.div_str_pos; lia).
  destruct (2 * _ <? 635)%Z; lia.
Qed.

Lemma absorb_width table_words G x w :
  (0 < w)%Z →
  Forall whole_twips G →
  Forall whole_twips (absorb table_words G (x, w))
  ∧ row_width (absorb table_words G (x, w))
    = (row_width G + stored_width (Cm w))%Z.
Proof.
  intros Hw HG. pose proof (twips_Cm_pos w Hw) as HCm.
  assert (whole_twips (new_tc (stored_width (Cm w)))) as Hnew
    by (by exists (twips (Cm w))).
  assert (Forall whole_twips
            match last G with
            | None => [new_tc (stored_width (Cm w))]
            | Some t => removelast G ++ [widen t w]
            end
          ∧ row_width match last G with
                      | None => [new_tc (stored_width (Cm w))]
                      | Some t => removelast G ++ [widen t w]
                      end = (row_width G + stored_width (Cm w))%Z) as Habsent.
  { destruct (last G) as [t|] eqn:E.
    - apply last_Some in E as [init ->]. rewrite removelast_last.
      apply Forall_app in HG as [Hinit Ht]. rewrite Forall_singleton in Ht.
      destruct Ht as (k & Hk & Ht).
      assert (tc_width (widen t w) = Twips (k + twips (Cm w))) as Hwiden.
      { unfold widen. cbn [tc_width]. rewrite Ht.
        rewrite (proj2 (Z.eqb_neq (Twips k) 0)) by (unfold Twips; lia).
        rewrite (proj2 (Z.eqb_neq (stored_width (Cm w)) 0))
          by (unfold stored_width, Twips; lia).
        cbn [negb andb]. unfold stored_width at 2.
        replace (Twips k + Twips (twips (Cm w)))%Z
          with (Twips (k + twips (Cm w))) by (unfold Twips; lia).
        apply stored_width_Twips. }
      split.
      + apply Forall_app. split; [done|]. rewrite Forall_singleton.
        exists (k + twips (Cm w))%Z. split; [lia | done].
      + rewrite !row_width_snoc, Hwiden, Ht.
        unfold stored_width, Twips. lia.
    - apply last_None in E as ->. split; [by rewrite Forall_singleton|].
      unfold row_width. simpl. lia. }
  destruct x as [[|a v]|].
  - by rewrite absorb_falsy by constructor.
  - rewrite absorb_present. split.
    + apply Forall_app. split; [done|]. by rewrite Forall_singleton.
    + by rewrite row_width_snoc.
  - by rewrite absorb_falsy by constructor.
Qed.

Lemma foldl_absorb_width table_words xs :
  ∀ ws G,
    length xs ≤ length ws →
    Forall (λ w, (0 < w)%Z) (take (length xs) ws) →
    Forall whole_twips G →
    row_width (foldl (absorb table_words) G (zip xs ws))
    = (row_width G
       + foldr Z.add 0 (map (λ w, stored_width (Cm w))
                          (take (length xs) ws)))%Z.
Proof.
  induction xs as [|x xs IH]; intros ws G Hlen Hws HG.
  - simpl. lia.
  - destruct ws as [|w ws]; simpl in Hlen; [lia|].
    cbn [length take] in Hws. inversion Hws as [|? ? Hw Hws']; subst.
    destruct (absorb_width table_words G x w Hw HG) as [HG' Hsum].
    cbn [zip_with foldl length take map foldr].
    rewrite IH by (done || lia). rewrite Hsum. lia.
Qed.

(** X7.  With positive column widths every built row is exactly as wide
    as the columns of the table together, each column with the width the
    document stores for it, in whole twips: a merge adds the width of the
    swallowed column to the cell that takes it in.  Two columns of 1 and
    3 cm make rows of 360045 + 1080135 = 1440180 EMU. *)
Theorem built_row_width_is_sum_of_columns
  (doc doc' : Document) (row0 : list (option string)) (rest : grid)
  (table_words : list word) (col_widths : list Z) :
  add_table_to_doc doc (row0 :: rest) table_words col_widths = Ok doc' →
  Forall (λ w, (0 < w)%Z) (take (length row0) col_widths) →
  ∃ t, doc' = append_block (append_block doc (BTable t))
                (BParagraph empty_paragraph)
       ∧ Forall (λ row, row_width row
                        = foldr Z.add 0%Z
                            (map (λ w, Twips (twips (Cm w)))
                               (take (length row0) col_widths)))
                (t_rows t).
Proof.
  intros Hrun Hpos.
  destruct (add_table_to_doc_ok _ _ _ _ _ _ Hrun) as (Hcw & Hrows & ->).
  eexists. split; [reflexivity|]. cbn [t_rows].
  apply Forall_forall. intros row Hrow.
  apply list_elem_of_In, in_map_iff in Hrow as (src & <- & Hsrc).
  apply list_elem_of_In in Hsrc.
  rewrite Forall_forall in Hrows. specialize (Hrows src Hsrc).
  assert (length (take (length row0) src) = length row0) as Htake
    by (rewrite length_take; lia).
  unfold visual_row.
  rewrite foldl_absorb_width; rewrite ?Htake; [done | lia | done | done].
Qed.

Lemma built_row_width_is_sum_of_columns_witness :
  ∃ doc' t,
    add_table_to_doc create_word
      [[Some "H1"; Some "H2"]; [Some "v1"; None]]%string
      ([] : list word) [1; 3; 15]%Z
    = Ok doc'
    ∧ doc' = append_block (append_block create_word (BTable t))
               (BParagraph empty_paragraph)
    ∧ Forall (λ row, row_width row = 1440180%Z) (t_rows t).
Proof.
  eexists.
  destruct (built_row_width_is_sum_of_columns create_word _
              [Some "H1"; Some "H2"]%string [[Some "v1"; None]]%string
              [] [1; 3; 15]%Z eq_refl)
    as (t & Hdoc & Hrows).
  - repeat constructor.
  - exists t. split; [reflexivity|]. split; [exact Hdoc | exact Hrows].
Defined.

Lemma populated_paragraphs table_words w v :
  tc_paragraphs (populated_tc table_words w v)
  = [value_paragraph table_words v].
Proof.
  unfold populated_tc, value_paragraph. cbn [tc_paragraphs].
  by destruct (matching_word table_words v).
Qed.

Lemma absorb_cell_content table_words S G x w :
  (∀ a v, x = Some (String a v) → Some (String a v) ∈ S) →
  Forall (cell_content table_words S) G →
  Forall (cell_content table_words S) (absorb table_words G (x, w)).
Proof.
  intros HS HG.
  assert (Forall (cell_content table_words S)
            match last G with
            | None => [new_tc (stored_width (Cm w))]
            | Some t => removelast G ++ [widen t w]
            end) as Habsent.
  { destruct (last G) as [t|] eqn:E.
    - apply last_Some in E as [init ->]. rewrite removelast_last.
      apply Forall_app in HG as [Hinit Ht]. rewrite Forall_singleton in Ht.
      apply Forall_app. split; [done|]. by rewrite Forall_singleton.
    - rewrite Forall_singleton. by left. }
  destruct x as [[|a v]|].
  - by rewrite absorb_falsy by constructor.
  - rewrite absorb_present. apply Forall_app. split; [done|].
    rewrite Forall_singleton. right. exists a, v.
    split; [by apply HS | apply populated_paragraphs].
  - by rewrite absorb_falsy by constructor.
Qed.

(** Every cell of a built row is empty or holds the paragraph of a
    present value of its source row. *)
Lemma visual_row_cell_content table_words col_widths src :
  Forall (cell_content table_words src)
         (visual_row table_words col_widths src).
Proof.
  unfold visual_row.
  assert (∀ xs ws G,
            (∀ x, x ∈ xs → x ∈ src) →
            Forall (cell_content table_words src) G →
            Forall (cell_content table_words src)
              (foldl (absorb table_words) G (zip xs ws))) as Hfold.
  { induction xs as [|x xs IH]; intros ws G Hsub HG; [done|].
    destruct ws as [|w ws]; [done|]. cbn [zip_with foldl].
    apply IH.
    - intros y Hy. apply Hsub. by right.
    - apply absorb_cell_content; [|done].
      intros a v ->. apply Hsub. by left. }
  by apply Hfold.
Qed.



Lemma paragraph_text_value table_words v :
  paragraph_text (value_paragraph table_words v) = v.
Proof.
  unfold value_paragraph, paragraph_text.
  destruct (matching_word table_words v); simpl; apply append_nil.
Qed.

(** The entry of [row.cells] for a column, and the text read from it. *)
Lemma column_texts_lookup row c s :
  column_texts row !! c = Some s →
  ∃ i cell, cells row !! c = Some i ∧ row !! i = Some cell
            ∧ cell_text cell = s.
Proof.
  unfold column_texts. rewrite list_lookup_fmap.
  destruct (cells row !! c) as [i|] eqn:E; [|done]. simpl. intros [= <-].
  destruct (lookup_lt_is_Some_2 row i) as [cell Hcell].
  { apply list_elem_of_lookup_2, cells_from_bound in E. lia. }
  exists i, cell. by rewrite Hcell.
Qed.

(** The cell that covers the column of a present value holds the
    paragraph of that value. *)
Lemma visual_row_present_column table_words col_widths src c a s :
  length src ≤ length col_widths →
  src !! c = Some (Some (String a s)) →
  ∃ i cell,
    cells (visual_row table_words col_widths src) !! c = Some i
    ∧ visual_row table_words col_widths src !! i = Some cell
    ∧ tc_paragraphs cell = [value_paragraph table_words (String a s)].
Proof.
  intros Hlen Hval.
  destruct (visual_row_layout table_words _ _ Hlen) as [_ Htexts].
  pose proof (shown_texts_lookup _ _ _ Hval) as Htext.
  cbn [present_value] in Htext. rewrite <- Htexts in Htext.
  destruct (column_texts_lookup _ _ _ Htext) as (i & cell & Hi & Hcell & Hct).
  exists i, cell. split; [done|]. split; [done|].
  pose proof (visual_row_cell_content table_words col_widths src) as Hall.
  rewrite Forall_forall in Hall.
  destruct (Hall cell (list_elem_of_lookup_2 _ _ _ Hcell))
    as [Hempty|(a' & v' & _ & Hp)].
  - unfold cell_text in Hct. rewrite Hempty in Hct. done.
  - unfold cell_text in Hct. rewrite Hp in Hct. cbn [map String.concat] in Hct.
    rewrite paragraph_text_value in Hct. by rewrite Hp, Hct.
Qed.

(** The column of an absent or empty cell, in a completed call. *)
Lemma falsy_column_layout doc doc' row0 rest (table_words : list word)
  col_widths r c src x :
  add_table_to_doc doc (row0 :: rest) table_words col_widths = Ok doc' →
  (row0 :: rest) !! r = Some src →
  c < length row0 →
  src !! c = Some x →
  falsy x →
  ∃ t row,
    doc' = append_block (append_block doc (BTable t))
             (BParagraph empty_paragraph)
    ∧ t_rows t !! r = Some row
    ∧ match c with
      | 0 => cells row !! 0 = Some 0
             ∧ column_texts row !! 0 = Some EmptyString
      | S c' => cells row !! c = cells row !! c'
                ∧ column_texts row !! c = column_texts row !! c'
      end.
Proof.
  intros Hrun Hsrc Hc Hval Hfalsy.
  apply present_value_None_falsy in Hfalsy.
  destruct (built_row_lookup _ _ _ _ _ _ _ _ Hrun Hsrc)
    as (t & -> & Hrow & Hlen & Hcw).
  exists t, (visual_row table_words col_widths (take (length row0) src)).
  split; [done|]. split; [done|].
  assert (length (take (length row0) src) ≤ length col_widths) as Hlen'
    by (rewrite length_take; lia).
  destruct (visual_row_layout table_words _ _ Hlen') as [-> ->].
  assert (take (length row0) src !! c = Some x) as Hval'
    by (rewrite lookup_take_lt by done; done).
  pose proof (shown_texts_lookup _ _ _ Hval') as Htext.
  pose proof (covering_lookup _ _ _ Hval') as Hcell.
  rewrite Hfalsy in Htext, Hcell. destruct c as [|c']; [done|].
  destruct (lookup_lt_is_Some_2 (covering (take (length row0) src)) c')
    as [i Hi].
  { rewrite length_covering, length_take. lia. }
  destruct (lookup_lt_is_Some_2 (shown_texts (take (length row0) src)) c')
    as [s Hs].
  { rewrite length_shown_texts, length_take. lia. }
  rewrite Hi in Hcell. rewrite Hs in Htext.
  by rewrite Hcell, Htext, Hi, Hs.
Qed.



(** ** Words of a line *)

(** X9.  Two lines whose tops are at least twice the threshold apart never
    share a word: a word can only be picked up by lines that are close to
    each other. *)
Theorem far_lines_share_no_word
  (l1 l2 : line) (words : list word) (threshold : Q) (w : word) :
  (2 * threshold <= Qabs (l_top l1 - l_top l2))%Q →
  In w (get_words_for_line l1 words threshold) →
  ¬ In w (get_words_for_line l2 words threshold).
Proof.
  intros Hfar H1 H2. unfold get_words_for_line in *.
  apply filter_In in H1 as [_ H1]. apply filter_In in H2 as [_ H2].
  apply Qltb_lt in H1, H2.
  rewrite Qabs_Qminus in H1.
  assert (l_top l1 - l_top l2 == (l_top l1 - w_top w) + (w_top w - l_top l2))%Q
    as Hsplit by ring.
  pose proof (Qabs_triangle (l_top l1 - w_top w) (w_top w - l_top l2)) as Htri.
  rewrite <- Hsplit in Htri.
  assert (Qabs (l_top l1 - l_top l2) < threshold + threshold)%Q as Hlt.
  { eapply Qle_lt_trans; [exact Htri|].
    apply Qplus_lt_le_compat; [done | by apply Qlt_le_weak]. }
  assert (2 * threshold == threshold + threshold)%Q as Hdouble by ring.
  rewrite Hdouble in Hfar.
  by apply (Qlt_not_le _ _ Hlt).
Qed.

Lemma far_lines_share_no_word_witness :
  let w := mkWord "Body" 100 111 40 70 None 11 in
  let l1 := mkLine "Body text" 100 111 40 120 in
  let l2 := mkLine "More" 106 117 40 120 in
  In w (get_words_for_line l1 [w] 3)
  ∧ ¬ In w (get_words_for_line l2 [w] 3).
Proof.
  intros w l1 l2.
  assert (In w (get_words_for_line l1 [w] 3)) as H1 by (left; reflexivity).
  split; [exact H1|].
  apply (far_lines_share_no_word l1 l2 [w] 3 w); [|exact H1].
  vm_compute. discriminate.
Defined.

(** X10.  A threshold of zero or less matches no word at all, not even one
    whose top equals the line's top. *)
Theorem nonpositive_threshold_matches_nothing
  (l : line) (words : list word) (threshold : Q) :
  (threshold <= 0)%Q → get_words_for_line l words threshold = [].
Proof.
  intros Hle. unfold get_words_for_line. q_ops.
  induction words as [|w words IH]; [done|]. cbn [List.filter].
  destruct (Qltb (Qabs (w_top w - l_top l)) threshold) eqn:E; [|done].
  apply Qltb_lt in E. exfalso.
  apply (Qlt_not_le _ _ E).
  eapply Qle_trans; [exact Hle | apply Qabs_nonneg].
Qed.

Lemma nonpositive_threshold_matches_nothing_witness :
  let w := mkWord "Body" 100 111 40 70 None 11 in
  let l := mkLine "Body text" 100 111 40 120 in
  get_words_for_line l [w] 0 = [].
Proof.
  intros w l.
  apply (nonpositive_threshold_matches_nothing l [w] 0).
  vm_compute. discriminate.
Defined.

(** ** The text loop *)

Lemma append_blocks_nil doc : append_blocks doc [] = doc.
Proof. destruct doc. unfold append_blocks. simpl. by rewrite app_nil_r. Qed.

Lemma append_blocks_app doc bs1 bs2 :
  append_blocks (append_blocks doc bs1) bs2 = append_blocks doc (bs1 ++ bs2).
Proof. unfold append_blocks. simpl. by rewrite app_assoc. Qed.

Lemma append_block_blocks doc b : append_block doc b = append_blocks doc [b].
Proof. reflexivity. Qed.

(** X11.  The text loop only appends: it leaves the page setup and the
    blocks already in the document alone and adds one paragraph for every
    line that is inside no table bounding box and has a matched word, in
    the order of the lines.  Each paragraph holds the runs of the words
    matched by its own line. *)
Theorem text_loop_appends_one_paragraph_per_emitted_line
  (words : list word) (table_bboxes : list bbox) (page_center : Q)
  (lines : list line) (doc : Document) :
  add_normal_text words table_bboxes page_center lines doc
  = append_blocks doc
      (map (λ l, BParagraph
                   {| p_alignment :=
                        Some (if is_centered l page_center
                              then CENTER else LEFT);
                      p_runs :=
                        map (word_run 11 "Times New Roman")
                            (get_words_for_line l words 3) |})
           (List.filter
              (λ l, negb (existsb (λ bb, is_line_inside_table l bb 2)
                                  table_bboxes)
                    && negb (Nat.eqb
                               (length (get_words_for_line l words 3)) 0))
              lines)).
Proof.
  unfold add_normal_text. revert doc.
  induction lines as [|l lines IH]; intros doc.
  - simpl. by rewrite append_blocks_nil.
  - cbn [foldl List.filter]. rewrite IH.
    unfold line_step at 1. unfold default_tol, default_threshold. q_ops.
    destruct (existsb _ table_bboxes); cbn [negb andb]; [done|].
    destruct (get_words_for_line l words 3) as [|w ws] eqn:E;
      cbn [length Nat.eqb negb map]; [done|].
    unfold add_line_paragraph.
    rewrite append_block_blocks, append_blocks_app.
    unfold default_font_size, default_font_name. by rewrite E.
Qed.

(** ** The finished document *)

Lemma line_step_setup (words : list word) table_bboxes page_center doc l :
  let doc' := line_step words table_bboxes page_center doc l in
  page_w doc' = page_w doc ∧ top_margin doc' = top_margin doc
  ∧ bottom_margin doc' = bottom_margin doc
  ∧ left_margin doc' = left_margin doc
  ∧ right_margin doc' = right_margin doc.
Proof.
  simpl.
  destruct (line_step_cases words table_bboxes page_center doc l)
    as [[-> _]|[-> _]]; done.
Qed.

Lemma add_normal_text_setup (words : list word) table_bboxes page_center lines :
  ∀ doc,
    let doc' := add_normal_text words table_bboxes page_center lines doc in
    page_w doc' = page_w doc ∧ top_margin doc' = top_margin doc
    ∧ bottom_margin doc' = bottom_margin doc
    ∧ left_margin doc' = left_margin doc
    ∧ right_margin doc' = right_margin doc.
Proof.
  unfold add_normal_text. induction lines as [|l lines IH]; intros doc.
  - done.
  - cbn [foldl]. cbn zeta in IH.
    destruct (IH (line_step words table_bboxes page_center doc l))
      as (-> & -> & -> & -> & ->).
    apply line_step_setup.
Qed.

Lemma table_step_ok words table_bboxes doc (g : grid) doc' :
  table_step words table_bboxes doc g = Ok doc' →
  doc' = append_blocks doc
           (table_blocks (table_words_for words table_bboxes)
              [1; 3; 15]%Z g).
Proof.
  unfold table_step. destruct g as [|row0 rest].
  - intros [= <-]. simpl. by rewrite append_blocks_nil.
  - intros Hrun.
    destruct (add_table_to_doc_ok _ _ _ _ _ _ Hrun) as (_ & _ & ->).
    by rewrite !append_block_blocks, append_blocks_app.
Qed.

Lemma add_tables_ok words table_bboxes (tables : list grid) :
  ∀ doc doc',
    add_tables words table_bboxes tables doc = Ok doc' →
    doc' = append_blocks doc
             (flat_map (table_blocks (table_words_for words table_bboxes)
                          [1; 3; 15]%Z) tables).
Proof.
  unfold add_tables. induction tables as [|g tables IH]; intros doc doc'.
  - intros [= <-]. simpl. by rewrite append_blocks_nil.
  - cbn [for_each flat_map].
    destruct (table_step words table_bboxes doc g) as [doc1|e] eqn:E;
      [|done].
    cbn [mbind result_bind]. intros Hrest.
    apply table_step_ok in E as ->. apply IH in Hrest as ->.
    by rewrite append_blocks_app.
Qed.

(** X12.  A run that completes has read a first page, and its document is
    the one left by the text loop with the blocks of the tables after it:
    per non-empty grid a table and an empty paragraph, in the order of the
    grids.  All text paragraphs come before all tables, wherever the
    tables stand on the page, and the page keeps the width of the template
    and margins of half an inch. *)
Theorem completed_document_is_text_then_tables
  (pdfplumber_open : string → option (list pdf_page))
  (pdf_path : string) (doc : Document) :
  build_document pdfplumber_open pdf_path = Ok doc →
  ∃ pg pages,
    pdfplumber_open pdf_path = Some (pg :: pages)
    ∧ doc = append_blocks
              (add_normal_text (extract_words pg)
                 (map ft_bbox (find_tables pg))
                 (page_width (pg_page pg) / 2)
                 (extract_text_lines pg) create_word)
              (flat_map
                 (table_blocks
                    (table_words_for (extract_words pg)
                       (map ft_bbox (find_tables pg)))
                    [1; 3; 15]%Z)
                 (extract_tables pg))
    ∧ page_w doc = 7772400%Z
    ∧ top_margin doc = 457200%Z ∧ bottom_margin doc = 457200%Z
    ∧ left_margin doc = 457200%Z ∧ right_margin doc = 457200%Z.
Proof.
  unfold build_document, extract_words_and_lines.
  destruct (pdfplumber_open pdf_path) as [[|pg pages]|]; simpl; try done.
  intros Hrun. exists pg, pages. split; [done|].
  apply add_tables_ok in Hrun as ->. split; [done|].
  cbn [append_blocks page_w top_margin bottom_margin left_margin
         right_margin].
  destruct (add_normal_text_setup (extract_words pg)
              (map ft_bbox (find_tables pg))
              (page_width (pg_page pg) / 2)%Q
              (extract_text_lines pg) create_word)
    as (H1 & H2 & H3 & H4 & H5).
  split_and!;
    [ exact (eq_trans H1 eq_refl) | exact (eq_trans H2 eq_refl)
    | exact (eq_trans H3 eq_refl) | exact (eq_trans H4 eq_refl)
    | exact (eq_trans H5 eq_refl) ].
Qed.

Lemma completed_document_is_text_then_tables_witness :
  ∃ doc,
    build_document sample_open "sample.pdf" = Ok doc
    ∧ page_w doc = 7772400%Z
    ∧ length (body doc) = 4.
Proof.
  eexists. split; [reflexivity|].
  destruct (completed_document_is_text_then_tables sample_open "sample.pdf"
              _ eq_refl)
    as (pg & pages & Hopen & Hdoc & Hpage & _).
  split; [exact Hpage | reflexivity].
Defined.

(** X13.  Only the first page of the file is read: two files that agree on
    their first page give the same effects and the same outcome, whatever
    their other pages hold. *)
Theorem only_first_page_is_read
  (open1 open2 : string → option (list pdf_page))
  (pdf_path output_doc : string) (pg : pdf_page)
  (pages1 pages2 : list pdf_page) :
  open1 pdf_path = Some (pg :: pages1) →
  open2 pdf_path = Some (pg :: pages2) →
  main open1 pdf_path output_doc = main open2 pdf_path output_doc.
Proof.
  intros H1 H2.
  unfold main, build_document, extract_words_and_lines.
  by rewrite H1, H2.
Qed.

Lemma only_first_page_is_read_witness :
  main sample_open "sample.pdf" "out.docx"
  = main (λ _, Some [sample_page; sample_page]) "sample.pdf" "out.docx".
Proof.
  apply (only_first_page_is_read sample_open
           (λ _, Some [sample_page; sample_page])
           "sample.pdf" "out.docx" sample_page [] [sample_page]);
    reflexivity.
Defined.

(** ** Words of a table *)

(** X14.  The word list built for the tables holds a word exactly when the
    word is on the page and its vertical span lies inside some table
    bounding box (tolerance 2).  With a single table it is the list of the
    words inside that table's box, each once and in page order; without
    tables it is empty. *)
Theorem table_words_are_words_inside_some_table :
  (∀ (words : list word) (table_bboxes : list bbox) (w : word),
     In w (table_words_for words table_bboxes)
     ↔ In w words
       ∧ ∃ bb, In bb table_bboxes
               ∧ is_line_inside_table
                   {| tb_top := w_top w; tb_bottom := w_bottom w |} bb 2
                 = true)
  ∧ (∀ (words : list word) (bb : bbox),
       table_words_for words [bb]
       = List.filter
           (λ w, is_line_inside_table
                   {| tb_top := w_top w; tb_bottom := w_bottom w |} bb 2)
           words)
  ∧ (∀ words : list word, table_words_for words [] = []).
Proof.
  split_and!.
  - intros words table_bboxes w. unfold table_words_for, default_tol. q_ops.
    rewrite <- !list_elem_of_In, list_elem_of_bind. split.
    + intros (w' & Hin & Hw').
      apply list_elem_of_bind in Hin as (bb & Hin & Hbb).
      destruct (is_line_inside_table _ bb 2) eqn:E;
        [|by apply elem_of_nil in Hin].
      apply list_elem_of_singleton in Hin as ->.
      split; [done|]. exists bb. by rewrite <- list_elem_of_In.
    + intros (Hw & bb & Hbb & E). exists w. split; [|done].
      apply list_elem_of_bind. exists bb.
      rewrite E, <- list_elem_of_In in *. split; [by left | done].
  - intros words bb. unfold table_words_for, default_tol. q_ops.
    induction words as [|w words IH]; [done|].
    rewrite bind_cons, IH, bind_singleton. cbn [List.filter].
    by destruct (is_line_inside_table _ bb 2).
  - intros words. unfold table_words_for.
    induction words as [|w words IH]; [done|].
    by rewrite bind_cons, IH.
Qed.

(** ** What the table builder reads *)

(** X15.  Cells beyond the length of the first row are never read: cutting
    every row down to the length of the first one changes nothing, neither
    the document nor the exception. *)
Theorem cells_beyond_first_row_are_ignored
  (doc : Document) (row0 : list (option string)) (rest : grid)
  (table_words : list word) (col_widths : list Z) :
  add_table_to_doc doc (row0 :: rest) table_words col_widths
  = add_table_to_doc doc (row0 :: map (take (length row0)) rest)
      table_words col_widths.
Proof.
  rewrite !add_table_to_doc_cases.
  destruct (length col_widths <? length row0); [done|].
  assert (forallb (λ src, length row0 <=? length src)
            (map (take (length row0)) rest)
          = forallb (λ src, length row0 <=? length src) rest) as ->.
  { induction rest as [|src rest IH]; [done|]. cbn [map forallb].
    rewrite IH. f_equal. rewrite length_take.
    destruct (length row0 <=? length src) eqn:E.
    - apply Nat.leb_le in E. apply Nat.leb_le. lia.
    - apply Nat.leb_gt in E. apply Nat.leb_gt. lia. }
  destruct (forallb _ rest); [|done].
  cbn [map]. rewrite map_map.
  rewrite (map_ext (λ src, visual_row table_words col_widths
                             (take (length row0) (take (length row0) src)))
                   (λ src, visual_row table_words col_widths
                             (take (length row0) src))); [done|].
  intros src. by rewrite take_take, Nat.min_id.
Qed.

(** X16.  The table words only style the cells.  With two different word
    lists the builder raises the same exception or completes both times,
    and then both tables have the same layout: the same visual cell under
    every column and the same text in every column of every row. *)
Theorem table_words_only_style_cells
  (doc : Document) (row0 : list (option string)) (rest : grid)
  (words1 words2 : list word) (col_widths : list Z) :
  match add_table_to_doc doc (row0 :: rest) words1 col_widths,
        add_table_to_doc doc (row0 :: rest) words2 col_widths with
  | Ok doc1, Ok doc2 =>
      ∃ t1 t2,
        doc1 = append_block (append_block doc (BTable t1))
                 (BParagraph empty_paragraph)
        ∧ doc2 = append_block (append_block doc (BTable t2))
                   (BParagraph empty_paragraph)
        ∧ map cells (t_rows t1) = map cells (t_rows t2)
        ∧ map column_texts (t_rows t1) = map column_texts (t_rows t2)
  | Raise e1, Raise e2 => e1 = e2
  | _, _ => False
  end.
Proof.
  rewrite !add_table_to_doc_cases.
  destruct (length col_widths <? length row0) eqn:Hw; [done|].
  apply Nat.ltb_ge in Hw.
  destruct (forallb _ rest); [|done].
  do 2 eexists. split; [reflexivity|]. split; [reflexivity|].
  cbn [t_rows]. rewrite !map_map.
  assert (∀ src : list (option string),
            length (take (length row0) src) ≤ length col_widths) as Hlen.
  { intros src. rewrite length_take. lia. }
  split; apply map_ext; intros src.
  - by rewrite (proj1 (visual_row_layout words1 _ _ (Hlen src))),
               (proj1 (visual_row_layout words2 _ _ (Hlen src))).
  - by rewrite (proj2 (visual_row_layout words1 _ _ (Hlen src))),
               (proj2 (visual_row_layout words2 _ _ (Hlen src))).
Qed.

(** ** When a run completes *)

(** X17.  A run that completes has read a file with a first page on
    which every table is empty or has at most three columns and no row
    shorter than its first row.  When the file cannot be read, has no
    page, or has a wider or ragged table on its first page, the run
    raises and nothing is saved or printed. *)
Theorem completed_run_had_fitting_tables
  (pdfplumber_open : string → option (list pdf_page))
  (pdf_path output_doc : string) :
  (raised (main pdfplumber_open pdf_path output_doc) = None →
   ∃ pg pages,
     pdfplumber_open pdf_path = Some (pg :: pages)
     ∧ Forall (grid_fits 3) (extract_tables pg))
  ∧ ((∀ pg pages,
        pdfplumber_open pdf_path = Some (pg :: pages) →
        ¬ Forall (grid_fits 3) (extract_tables pg)) →
     raised (main pdfplumber_open pdf_path output_doc) ≠ None
     ∧ effects (main pdfplumber_open pdf_path output_doc) = []).
Proof.
  assert (∀ pg pages doc,
            pdfplumber_open pdf_path = Some (pg :: pages) →
            build_document pdfplumber_open pdf_path = Ok doc →
            Forall (grid_fits 3) (extract_tables pg)) as Hfits.
  { intros pg pages doc Hopen.
    unfold build_document, extract_words_and_lines. rewrite Hopen. simpl.
    intros E. apply Forall_forall. intros g Hg.
    destruct (for_each_ok_all _ _ _ _ E g Hg) as (d1 & d2 & Hstep).
    unfold table_step in Hstep. destruct g as [|row0 rest]; [done|].
    destruct (add_table_to_doc_ok _ _ _ _ _ _ Hstep) as (Hcw & Hrows & _).
    split; [done|]. by inversion Hrows. }
  unfold main.
  destruct (build_document pdfplumber_open pdf_path) as [doc|e] eqn:E;
    cbn [raised effects].
  - assert (∃ pg pages, pdfplumber_open pdf_path = Some (pg :: pages))
      as (pg & pages & Hopen).
    { unfold build_document, extract_words_and_lines in E.
      destruct (pdfplumber_open pdf_path) as [[|pg pages]|]; try done.
      by exists pg, pages. }
    split.
    + intros _. exists pg, pages. split; [done|]. by eapply Hfits.
    + intros Hno. exfalso. apply (Hno pg pages Hopen). by eapply Hfits.
  - split; [done|]. by intros _.
Qed.

Lemma completed_run_had_fitting_tables_witness :
  let wide := [[Some "a"; Some "b"; Some "c"; Some "d"]]%string in
  let pg := {| pg_page := mkPage 600 800;
               extract_words := [];
               extract_text_lines := [];
               find_tables := [ {| ft_bbox := (30, 200, 500, 250)%Q;
                                   ft_extract := wide |} ] |} in
  let open := λ _ : string, Some [pg] in
  raised (main open "in.pdf" "out.docx") ≠ None
  ∧ effects (main open "in.pdf" "out.docx") = [].
Proof.
  intros wide pg open.
  apply (proj2 (completed_run_had_fitting_tables open "in.pdf" "out.docx")).
  intros pg' pages' [= <- <-] Hfits.
  apply Forall_cons in Hfits as [[Hcols _] _]. simpl in Hcols. lia.
Defined.

(** ** Matching a cell to a word *)

Lemma append_empty_r (s : string) : s +:+ EmptyString = s.
Proof. induction s as [|a s IH]; [done|]. by rewrite append_cons, IH. Qed.

Lemma rev_app_append (s1 s2 s3 : string) :
  String.rev_app s1 s2 +:+ s3 = String.rev_app s1 (s2 +:+ s3).
Proof.
  revert s2. induction s1 as [|a s1 IH]; intros s2; [done|].
  cbn [String.rev_app]. by rewrite IH, append_cons.
Qed.

Lemma rev_app_rev_app (s a b : string) :
  String.rev_app (String.rev_app s a) b = String.rev_app a (s +:+ b).
Proof.
  revert a. induction s as [|c s IH]; intros a; [done|].
  cbn [String.rev_app]. rewrite IH. cbn [String.rev_app].
  by rewrite append_cons.
Qed.

Lemma rev_involutive (s : string) : String.rev (String.rev s) = s.
Proof.
  unfold String.rev. rewrite rev_app_rev_app. cbn [String.rev_app].
  apply append_empty_r.
Qed.

Lemma rev_append (s1 s2 : string) :
  String.rev (s1 +:+ s2) = String.rev s2 +:+ String.rev s1.
Proof.
  unfold String.rev. rewrite rev_app_append, append_nil.
  generalize EmptyString.
  induction s1 as [|a s1 IH]; intros acc; [done|].
  rewrite append_cons. cbn [String.rev_app]. apply IH.
Qed.

Lemma lstrip_idempotent (s : string) : lstrip (lstrip s) = lstrip s.
Proof.
  induction s as [|a s IH]; [done|]. cbn [lstrip].
  destruct (is_space a) eqn:E; [done|]. cbn [lstrip]. by rewrite E.
Qed.

Lemma lstrip_split (s : string) : ∃ pre, s = pre +:+ lstrip s.
Proof.
  induction s as [|a s [pre IH]]; [by exists EmptyString|].
  cbn [lstrip]. destruct (is_space a).
  - exists (String a pre). by rewrite append_cons, <- IH.
  - by exists EmptyString.
Qed.

Lemma length_lstrip (s : string) : String.length (lstrip s) ≤ String.length s.
Proof.
  induction s as [|a s IH]; [done|]. cbn [lstrip].
  destruct (is_space a); simpl; lia.
Qed.

(** A string that [lstrip] leaves alone still is left alone when cut off
    after a non-empty prefix. *)
Lemma lstrip_fixed_prefix (s t : string) :
  lstrip (s +:+ t) = s +:+ t → s ≠ EmptyString → lstrip s = s.
Proof.
  destruct s as [|a s]; [done|]. intros Hfix _.
  rewrite append_cons in Hfix. cbn [lstrip] in *.
  destruct (is_space a); [|done].
  pose proof (length_lstrip (s +:+ t)) as Hlen.
  rewrite Hfix in Hlen. simpl in Hlen. lia.
Qed.

Lemma rev_eq_empty (s : string) : String.rev s = EmptyString → s = EmptyString.
Proof.
  intros H. apply (f_equal String.rev) in H.
  by rewrite rev_involutive in H.
Qed.

Lemma rstrip_lstrip_fixed (u : string) :
  lstrip (String.rev u) = String.rev u →
  rstrip (lstrip u) = lstrip u.
Proof.
  intros Hfix. unfold rstrip.
  destruct (lstrip_split u) as [pre Hu].
  destruct (decide (String.rev (lstrip u) = EmptyString)) as [Hrev|Hne].
  - rewrite Hrev. cbn [lstrip]. by rewrite <- Hrev, rev_involutive.
  - rewrite Hu, rev_append in Hfix.
    rewrite (lstrip_fixed_prefix _ _ Hfix Hne). apply rev_involutive.
Qed.

(** X18.  Trimming is idempotent, so a cell is matched to a word by its
    trimmed text only: white space around the cell value never changes
    which word styles the cell. *)
Theorem cell_matching_ignores_surrounding_space :
  (∀ s : string, strip (strip s) = strip s)
  ∧ (∀ (table_words : list word) (value : string),
       matching_word table_words (strip value)
       = matching_word table_words value).
Proof.
  assert (∀ s : string, strip (strip s) = strip s) as Hidem.
  { intros s. unfold strip.
    assert (lstrip (String.rev (rstrip s)) = String.rev (rstrip s)) as Hfix.
    { unfold rstrip. rewrite rev_involutive. apply lstrip_idempotent. }
    rewrite (rstrip_lstrip_fixed _ Hfix). apply lstrip_idempotent. }
  split; [exact Hidem|].
  intros table_words value. unfold matching_word. by rewrite Hidem.
Qed.

(** ** Lines and words across the two stages *)

(** X19.  The words of a line that the text loop skips are handed to the
    table builder: a word whose vertical span lies within the span of a
    line that is inside a table bounding box is one of the table words. *)
Theorem words_of_skipped_line_are_table_words
  (words : list word) (table_bboxes : list bbox) (l : line) (w : word)
  (bb : bbox) :
  In w words →
  In bb table_bboxes →
  is_line_inside_table l bb 2 = true →
  (l_top l <= w_top w)%Q →
  (w_bottom w <= l_bottom l)%Q →
  In w (table_words_for words table_bboxes).
Proof.
  intros Hw Hbb Hinside Htop Hbottom.
  unfold table_words_for, default_tol. q_ops.
  rewrite <- list_elem_of_In. apply list_elem_of_bind.
  exists w. rewrite <- list_elem_of_In in Hw. split; [|done].
  apply list_elem_of_bind. exists bb.
  rewrite <- list_elem_of_In in Hbb. split; [|done].
  destruct bb as [[[x0 top] x1] bottom].
  apply (is_line_inside_table_spec l x0 top x1 bottom 2) in Hinside
    as [Ht Hb]. cbn [top_of bottom_of line_extent] in Ht, Hb.
  assert (is_line_inside_table
            {| tb_top := w_top w; tb_bottom := w_bottom w |}
            (x0, top, x1, bottom) 2 = true) as ->.
  { apply is_line_inside_table_spec.
    cbn [top_of bottom_of top_bottom_extent tb_top tb_bottom].
    split; eapply Qle_trans; eauto. }
  by left.
Qed.

Lemma words_of_skipped_line_are_table_words_witness :
  let w := mkWord "v1" 235 245 40 60 None 11 in
  let l := mkLine "v1" 235 245 40 60 in
  let bb : bbox := (30, 200, 500, 250)%Q in
  line_step [w] [bb] 300 create_word l = create_word
  ∧ In w (table_words_for [w] [bb]).
Proof.
  intros w l bb. split; [reflexivity|].
  apply (words_of_skipped_line_are_table_words [w] [bb] l w bb).
  - left. reflexivity.
  - left. reflexivity.
  - reflexivity.
  - vm_compute. discriminate.
  - vm_compute. discriminate.
Defined.

(** X20.  Alignment looks at the midpoint only: a line that is symmetric
    about the middle of the page is centred however wide it is, so a line
    running from margin to margin is centred too. *)
Theorem symmetric_line_is_centred (l : line) (pg : page) :
  (l_x0 l + l_x1 l == page_width pg)%Q →
  is_centered l (page_width pg / 2) = true.
Proof.
  intros Hsym. apply is_centered_spec.
  assert ((l_x0 l + l_x1 l) / 2 - page_width pg / 2 == 0)%Q as Hzero.
  { rewrite Hsym. unfold Qminus. apply Qplus_opp_r. }
  rewrite (Qabs_wd _ _ Hzero). reflexivity.
Qed.

Lemma symmetric_line_is_centred_witness :
  let l := mkLine "A line from margin to margin" 100 111 36 564 in
  is_centered l (page_width (mkPage 600 800) / 2) = true.
Proof.
  intros l. apply (symmetric_line_is_centred l (mkPage 600 800)).
  reflexivity.
Defined.

(** * The claims *)

(** C1.  Every run of [main] that reaches the save writes the document
    under the fixed name "word_file3.docx", whatever [output_doc] is, and
    then prints one line that names [output_doc]; a run that raises before
    the save has no effect at all. *)
Theorem main_saves_under_fixed_filename
  (pdfplumber_open : string → option (list pdf_page))
  (pdf_path output_doc : string) :
  (∃ doc, build_document pdfplumber_open pdf_path = Ok doc
          ∧ main pdfplumber_open pdf_path output_doc
            = {| effects := [Save "word_file3.docx" doc;
                             Print ("Word document saved: " +:+ output_doc)];
                 raised := None |})
  ∨ (∃ e, build_document pdfplumber_open pdf_path = Raise e
          ∧ main pdfplumber_open pdf_path output_doc
            = {| effects := []; raised := Some e |}).
Proof.
  unfold main.
  destruct (build_document pdfplumber_open pdf_path) as [doc|e].
  - left. by exists doc.
  - right. by exists e.
Qed.

(** C2.  A word is bold exactly when "Bold" is a substring of its font
    name, the empty string standing in for a missing one.  Both styling
    paths apply this test.  In the paragraph path every run carries the
    flag of its own word.  In the table path, in a completed call, the
    cell that [row.cells] gives for the column of a present value holds
    one paragraph with one run; the run carries the flag of the first
    table word whose trimmed text equals the trimmed value, and the
    paragraph is centred, when there is such a word, and flag and
    alignment stay unset when there is none.  No run of the table is
    flagged in any other way. *)
Theorem bold_iff_fontname_contains_Bold :
  (∀ F (w : gword F),
     is_bold w = true
     ↔ ∃ pre post, fontname_or_empty w = pre +:+ "Bold" +:+ post)
  ∧ (∀ F (num : PyNum F) doc (l : gline F) line_words page_center
       font_size font_name,
       ∃ p, add_line_paragraph doc l line_words page_center
              font_size font_name
            = append_block doc (BParagraph p)
          ∧ map run_bold (p_runs p)
            = map (λ w, Some (is_bold w)) line_words)
  ∧ (∀ doc doc' (row0 : list (option string)) (rest : grid)
       (table_words : list word) col_widths,
       add_table_to_doc doc (row0 :: rest) table_words col_widths = Ok doc' →
       ∃ t,
         doc' = append_block (append_block doc (BTable t))
                  (BParagraph empty_paragraph)
         ∧ (∀ r c src a s,
              (row0 :: rest) !! r = Some src →
              c < length row0 →
              src !! c = Some (Some (String a s)) →
              ∃ row i cell p run,
                t_rows t !! r = Some row
                ∧ cells row !! c = Some i
                ∧ row !! i = Some cell
                ∧ tc_paragraphs cell = [p]
                ∧ p_runs p = [run]
                ∧ run_bold run
                  = is_bold <$> matching_word table_words (String a s)
                ∧ (p_alignment p = Some CENTER
                   ↔ is_Some (matching_word table_words (String a s))))
         ∧ (∀ row cell p run b,
              row ∈ t_rows t → cell ∈ row →
              p ∈ tc_paragraphs cell → run ∈ p_runs p →
              run_bold run = Some b →
              ∃ src a s m,
                src ∈ row0 :: rest
                ∧ Some (String a s) ∈ src
                ∧ matching_word table_words (String a s) = Some m
                ∧ b = is_bold m)).
Proof.
  split_and!.
  - intros F w. apply py_in_substring.
  - intros F num doc l line_words page_center font_size font_name.
    eexists. split; [reflexivity|]. simpl.
    rewrite map_map. done.
  - intros doc doc' row0 rest table_words col_widths Hrun.
    destruct (add_table_to_doc_ok _ _ _ _ _ _ Hrun) as (Hcw & Hrows & ->).
    eexists. split; [reflexivity|]. cbn [t_rows]. split.
    + intros r c src a s Hsrc Hc Hval.
      pose proof (Forall_lookup_1 _ _ _ _ Hrows Hsrc) as Hlen.
      cbn beta in Hlen.
      assert (length (take (length row0) src) ≤ length col_widths) as Hlen'
        by (rewrite length_take; lia).
      assert (take (length row0) src !! c = Some (Some (String a s)))
        as Hval' by (rewrite lookup_take_lt by done; done).
      destruct (visual_row_present_column table_words col_widths _ c a s
                  Hlen' Hval') as (i & cell & Hi & Hcell & Hp).
      exists (visual_row table_words col_widths (take (length row0) src)),
        i, cell, (value_paragraph table_words (String a s)).
      assert (map (λ src, visual_row table_words col_widths
                            (take (length row0) src)) (row0 :: rest) !! r
              = Some (visual_row table_words col_widths
                        (take (length row0) src))) as Hrow.
      { change (map ?f ?l) with (f <$> l).
        by rewrite list_lookup_fmap, Hsrc. }
      unfold value_paragraph in Hp |- *.
      destruct (matching_word table_words (String a s)) as [m|].
      * eexists.
        split_and!;
          [exact Hrow | exact Hi | exact Hcell | exact Hp
          | reflexivity | reflexivity |].
        split; [intros _; by eexists | done].
      * eexists.
        split_and!;
          [exact Hrow | exact Hi | exact Hcell | exact Hp
          | reflexivity | reflexivity |].
        split; [done | by intros [? ?]].
    + intros row cell p run b Hrow Hcell Hp Hrun' Hb.
      apply list_elem_of_In, in_map_iff in Hrow as (src & <- & Hsrc).
      apply list_elem_of_In in Hsrc.
      pose proof (visual_row_cell_content table_words col_widths
                    (take (length row0) src)) as Hall.
      rewrite Forall_forall in Hall.
      destruct (Hall cell Hcell) as [Hempty|(a & s & Hin & Hps)].
      * rewrite Hempty in Hp. apply list_elem_of_singleton in Hp as ->.
        by apply elem_of_nil in Hrun'.
      * rewrite Hps in Hp. apply list_elem_of_singleton in Hp as ->.
        unfold value_paragraph in Hrun'.
        destruct (matching_word table_words (String a s)) as [m|] eqn:E;
          apply list_elem_of_singleton in Hrun' as ->; [|done].
        injection Hb as <-. exists src, a, s, m.
        split; [done|]. split; [|done].
        by apply (subseteq_take (length row0) src).
Qed.

Lemma bold_iff_fontname_contains_Bold_witness :
  let h1 := mkWord "H1" 205 215 40 60 (Some "Arial-BoldMT"%string) 11 in
  let v1 := mkWord "v1" 235 245 40 60 (Some "ArialMT"%string) 11 in
  let table := [[Some "H1"; Some "H2"]; [Some "v1"; None]]%string in
  ∃ doc' t row i cell p run,
    add_table_to_doc create_word table [h1; v1] [1; 3; 15]%Z = Ok doc'
    ∧ doc' = append_block (append_block create_word (BTable t))
               (BParagraph empty_paragraph)
    ∧ t_rows t !! 0 = Some row
    ∧ cells row !! 0 = Some i
    ∧ row !! i = Some cell
    ∧ tc_paragraphs cell = [p]
    ∧ p_runs p = [run]
    ∧ run_bold run = Some true
    ∧ p_alignment p = Some CENTER.
Proof.
  intros h1 v1 table. eexists.
  destruct (proj2 (proj2 bold_iff_fontname_contains_Bold) create_word _
              [Some "H1"; Some "H2"]%string [[Some "v1"; None]]%string
              [h1; v1] [1; 3; 15]%Z eq_refl)
    as (t & Hdoc & Hcol & _).
  destruct (Hcol 0 0 [Some "H1"; Some "H2"]%string
              (Ascii.ascii_of_nat 72) "1"%string eq_refl)
    as (row & i & cell & p & run & Hrow & Hi & Hcell & Hp & Hruns
        & Hbold & Hcentred).
  - simpl. lia.
  - reflexivity.
  - exists t, row, i, cell, p, run.
    split; [reflexivity|]. split; [exact Hdoc|]. split; [exact Hrow|].
    split; [exact Hi|]. split; [exact Hcell|]. split; [exact Hp|].
    split; [exact Hruns|]. split; [exact Hbold|].
    apply Hcentred. by eexists.
Defined.

(** C3.  A paragraph emitted for a line is centred exactly when the
    program's test holds: the distance between the line's midpoint
    (x0 + x1) / 2 and half the page width, as the program computes it, is
    below 20.  It is left-aligned exactly when the test fails, and it has
    no other alignment.  The test is the expression of the code in the
    arithmetic of the coordinates, so with doubles every operation
    rounds: the line from 248.6 to 391.4 on a page 600 wide is
    left-aligned, its computed distance being exactly 20. *)
Theorem paragraph_alignment_by_midpoint {F} {num : PyNum F}
  (words : list (gword F)) (table_bboxes : list (gbbox F)) (pg : gpage F)
  (doc : Document) (l : gline F) (p : paragraph) :
  let page_center := (page_width pg / num_of_Z 2)%num in
  let near :=
    (num_abs ((l_x0 l + l_x1 l) / num_of_Z 2 - page_center)
     <? num_of_Z 20)%num in
  line_step words table_bboxes page_center doc l
    = append_block doc (BParagraph p) →
  (p_alignment p = Some CENTER ↔ near = true)
  ∧ (p_alignment p = Some LEFT ↔ near = false)
  ∧ (p_alignment p = Some CENTER ∨ p_alignment p = Some LEFT).
Proof.
  intros page_center near Hstep.
  destruct (line_step_cases words table_bboxes page_center doc l)
    as [[Hsame _]|[Hadd _]].
  - rewrite Hsame in Hstep. symmetry in Hstep.
    by apply append_block_neq in Hstep.
  - rewrite Hadd in Hstep. unfold add_line_paragraph in Hstep.
    apply append_block_inj in Hstep. injection Hstep as <-.
    cbn [p_alignment]. change (is_centered l page_center) with near.
    destruct near.
    + split_and!; [done | done | by left].
    + split_and!; [done | done | by right].
Qed.

Lemma paragraph_alignment_by_midpoint_witness :
  let w := mkWord "TITLE" 100%float 112%float 248.6%float 391.4%float
             (Some "Times-Bold"%string) 14%float in
  let l := mkLine "TITLE" 100%float 112%float 248.6%float 391.4%float in
  let pg := mkPage 600%float 800%float in
  let p := {| p_alignment := Some LEFT;
              p_runs := [word_run 11 "Times New Roman" w] |} in
  line_step [w] [] (page_width pg / num_of_Z 2)%num create_word l
    = append_block create_word (BParagraph p)
  ∧ (num_abs ((l_x0 l + l_x1 l) / num_of_Z 2 - page_width pg / num_of_Z 2)
     <? num_of_Z 20)%num = false.
Proof.
  intros w l pg p.
  assert (line_step [w] [] (page_width pg / num_of_Z 2)%num create_word l
          = append_block create_word (BParagraph p)) as H
    by (vm_compute; reflexivity).
  split; [exact H|].
  destruct (paragraph_alignment_by_midpoint [w] [] pg create_word l p H)
    as (_ & Hleft & _).
  exact (proj1 Hleft eq_refl).
Defined.

(** C10.  An empty grid leaves the document as it is: no table and no
    spacing paragraph are appended. *)
Theorem empty_grid_leaves_document_unchanged
  (doc : Document) (table_words : list word) (col_widths : list Z) :
  add_table_to_doc doc [] table_words col_widths = Ok doc.
Proof. reflexivity. Qed.

(** C6, as amended.  A line whose vertical extent lies inside a table
    bounding box, with tolerance 2 on both bounds, produces no paragraph;
    equivalently, a line that does produce a paragraph is not contained in
    that way in any table bounding box. *)
Theorem line_inside_table_yields_no_paragraph
  (words : list word) (table_bboxes : list bbox) (page_center : Q)
  (doc : Document) (l : line) (x0 top x1 bottom : Q) :
  (x0, top, x1, bottom) ∈ table_bboxes →
  ((top - 2 <= l_top l)%Q ∧ (l_bottom l <= bottom + 2)%Q →
   line_step words table_bboxes page_center doc l = doc)
  ∧ (line_step words table_bboxes page_center doc l ≠ doc →
     ¬ ((top - 2 <= l_top l)%Q ∧ (l_bottom l <= bottom + 2)%Q)).
Proof.
  intros Hin.
  assert ((top - 2 <= l_top l)%Q ∧ (l_bottom l <= bottom + 2)%Q →
          line_step words table_bboxes page_center doc l = doc) as Hskip.
  { intros Hinside. unfold line_step.
    destruct (existsb _ table_bboxes) eqn:E; [done|].
    exfalso. by apply (proj1 (outside_every_table l table_bboxes) E
                         x0 top x1 bottom). }
  split; [exact Hskip | intros Hne Hinside; by apply Hne, Hskip].
Qed.

Lemma line_inside_table_yields_no_paragraph_witness :
  let w := mkWord "v1" 205 215 40 60 None 11 in
  let l := mkLine "v1" 205 215 40 60 in
  let bb : bbox := (30, 200, 500, 260)%Q in
  bb ∈ [bb]
  ∧ ((200 - 2 <= l_top l)%Q ∧ (l_bottom l <= 260 + 2)%Q)
  ∧ line_step [w] [bb] 300 create_word l = create_word.
Proof.
  intros w l bb.
  assert (bb ∈ [bb]) as Hin by apply list_elem_of_singleton, eq_refl.
  assert ((200 - 2 <= l_top l)%Q ∧ (l_bottom l <= 260 + 2)%Q) as Hinside
    by (split; vm_compute; discriminate).
  split; [exact Hin | split; [exact Hinside|]].
  exact (proj1 (line_inside_table_yields_no_paragraph
                  [w] [bb] 300 create_word l 30 200 500 260 Hin) Hinside).
Defined.

(** C6 as stated fails: a line that overlaps a table bounding box without
    lying inside it is still written as a paragraph. *)
Lemma overlapping_line_still_emitted :
  ¬ (∀ (words : list word) (table_bboxes : list bbox) (page_center : Q)
       (doc : Document) (l : line) (bb : bbox),
       bb ∈ table_bboxes →
       line_step words table_bboxes page_center doc l ≠ doc →
       ¬ overlaps_bbox l bb 2).
Proof.
  intros H.
  pose (w := mkWord "Total" 190 210 40 90 None 11).
  pose (l := mkLine "Total" 190 210 40 90).
  pose (bb := ((30, 200, 500, 260)%Q : bbox)).
  apply (H [w] [bb] 300%Q create_word l bb).
  - apply list_elem_of_singleton, eq_refl.
  - vm_compute. discriminate.
  - unfold overlaps_bbox, bb, l; cbn [l_x0 l_x1 l_top l_bottom].
    split_and!; vm_compute; discriminate.
Qed.



(** C5.  The word list handed to the table builder is the same for every
    table: with two tables on the page, the list built for the first one
    holds a word that lies in the second table's bounding box only. *)
Theorem table_words_cover_every_table :
  let w := mkWord "v1" 305 315 40 60 None 11 in
  let bb1 : bbox := (30, 100, 500, 160)%Q in
  let bb2 : bbox := (30, 300, 500, 360)%Q in
  table_words_for [w] [bb1; bb2] = [w]
  ∧ is_line_inside_table {| tb_top := w_top w; tb_bottom := w_bottom w |}
      bb1 default_tol = false
  ∧ ∀ doc t, table_step [w] [bb1; bb2] doc t
             = add_table_to_doc doc t [w] [1; 3; 15]%Z.
Proof.
  intros w bb1 bb2. split_and!; [reflexivity | reflexivity |].
  intros doc t. reflexivity.
Qed.

(** C8.  On a non-empty grid the table builder raises the out-of-range
    error on the width list exactly when the grid has more columns than
    the list has widths; no width is truncated or defaulted.  In [main],
    which passes three widths, a table with more than three columns ends
    the run before anything is saved. *)
Theorem width_error_iff_more_columns_than_widths :
  (∀ (doc : Document) (row0 : list (option string)) (rest : grid)
     (table_words : list word) (col_widths : list Z),
     add_table_to_doc doc (row0 :: rest) table_words col_widths
       = Raise (IndexError ColWidths)
     ↔ length col_widths < length row0)
  ∧ (∀ (pdfplumber_open : string → option (list pdf_page))
       (pdf_path output_doc : string) (pg : pdf_page)
       (pages : list pdf_page) (ft : found_table)
       (row0 : list (option string)) (rest : grid),
       pdfplumber_open pdf_path = Some (pg :: pages) →
       ft ∈ find_tables pg →
       ft_extract ft = row0 :: rest →
       3 < length row0 →
       raised (main pdfplumber_open pdf_path output_doc) ≠ None
       ∧ effects (main pdfplumber_open pdf_path output_doc) = []).
Proof.
  split.
  - intros doc row0 rest table_words col_widths. split.
    + intros Hraise.
      destruct (decide (length col_widths < length row0)) as [|Hge]; [done|].
      exfalso.
      apply (add_table_to_doc_enough_widths doc (row0 :: rest) table_words
               col_widths); [|done].
      intros ? [= <-]. lia.
    + apply add_table_to_doc_too_few_widths.
  - intros pdfplumber_open pdf_path output_doc pg pages ft row0 rest
      Hopen Hft Hgrid Hwide.
    unfold main, build_document, extract_words_and_lines.
    rewrite Hopen. simpl.
    destruct (add_tables _ _ _ _) as [doc|e] eqn:E; [|done].
    exfalso. unfold add_tables in E.
    destruct (for_each_ok_all _ _ _ _ E (ft_extract ft))
      as (doc1 & doc2 & Hstep).
    { unfold extract_tables. apply list_elem_of_In, in_map.
      by apply list_elem_of_In. }
    unfold table_step in Hstep. rewrite Hgrid in Hstep.
    rewrite add_table_to_doc_too_few_widths in Hstep by (simpl; lia).
    done.
Qed.

Lemma width_error_iff_more_columns_than_widths_witness :
  let wide := [[Some "a"; Some "b"; Some "c"; Some "d"]]%string in
  let pg := {| pg_page := mkPage 600 800;
               extract_words := [];
               extract_text_lines := [];
               find_tables := [ {| ft_bbox := (30, 200, 500, 250)%Q;
                                   ft_extract := wide |} ] |} in
  let open := λ _ : string, Some [pg] in
  add_table_to_doc create_word wide ([] : list word) [1; 3; 15]%Z
    = Raise (IndexError ColWidths)
  ∧ raised (main open "in.pdf" "out.docx") ≠ None
  ∧ effects (main open "in.pdf" "out.docx") = [].
Proof.
  intros wide pg open.
  destruct width_error_iff_more_columns_than_widths as [Hiff Hmain].
  split.
  - apply Hiff. simpl. lia.
  - apply (Hmain open "in.pdf"%string "out.docx"%string pg []
             {| ft_bbox := (30, 200, 500, 250)%Q; ft_extract := wide |}
             [Some "a"; Some "b"; Some "c"; Some "d"]%string []).
    + reflexivity.
    + apply list_elem_of_singleton. reflexivity.
    + reflexivity.
    + simpl. lia.
Defined.

(** C9.  An empty-string cell is handled as an absent one.  Two grids
    that differ only in cells that are absent in one and the empty string
    in the other give the same result, document or exception.  And in a
    completed call a cell that is absent or the empty string gets no
    visual cell and no text of its own: past column 0 its column lies in
    the same visual cell as its left neighbour and shows the same text,
    and in column 0 it is an empty cell. *)
Theorem empty_string_cell_same_as_absent :
  (∀ (doc : Document) (t1 t2 : grid) (table_words : list word)
     (col_widths : list Z),
     Forall2 (Forall2 same_or_falsy) t1 t2 →
     add_table_to_doc doc t1 table_words col_widths
     = add_table_to_doc doc t2 table_words col_widths)
  ∧ (∀ (doc doc' : Document) (row0 : list (option string)) (rest : grid)
       (table_words : list word) (col_widths : list Z)
       (r c : nat) (src : list (option string)) (x : option string),
       add_table_to_doc doc (row0 :: rest) table_words col_widths = Ok doc' →
       (row0 :: rest) !! r = Some src →
       c < length row0 →
       src !! c = Some x →
       x = None ∨ x = Some EmptyString →
       ∃ t row,
         doc' = append_block (append_block doc (BTable t))
                  (BParagraph empty_paragraph)
         ∧ t_rows t !! r = Some row
         ∧ match c with
           | 0 => cells row !! 0 = Some 0
                  ∧ column_texts row !! 0 = Some EmptyString
           | S c' => cells row !! c = cells row !! c'
                     ∧ column_texts row !! c = column_texts row !! c'
           end).
Proof.
  split.
  - intros doc t1 t2 table_words col_widths Hsame.
    unfold add_table_to_doc.
    destruct Hsame as [|row1 row2 rest1 rest2 Hrow Hrest]; [done|].
    assert (Forall2 (Forall2 same_or_falsy) (row1 :: rest1) (row2 :: rest2))
      as Hsame by by constructor.
    rewrite (Forall2_length _ _ _ Hsame), (Forall2_length _ _ _ Hrow).
    rewrite (for_each_ext
               (row_step (row1 :: rest1) table_words col_widths
                  (length row2))
               (row_step (row2 :: rest2) table_words col_widths
                  (length row2)));
      [done|].
    intros wt r. unfold row_step.
    rewrite (for_each_ext
               (cell_step (row1 :: rest1) table_words col_widths r)
               (cell_step (row2 :: rest2) table_words col_widths r));
      [done|].
    intros st c. by apply cell_step_falsy.
  - intros doc doc' row0 rest table_words col_widths r c src x
      Hrun Hsrc Hc Hval Hx.
    apply (falsy_column_layout doc doc' row0 rest table_words col_widths
             r c src x Hrun Hsrc Hc Hval).
    destruct Hx as [->| ->]; constructor.
Qed.

Lemma empty_string_cell_same_as_absent_witness :
  let w := mkWord "v1" 205 215 40 60 None 11 in
  let t1 := [[Some "v1"; Some EmptyString; None]]%string in
  let t2 := [[Some "v1"; None; Some EmptyString]]%string in
  Forall2 (Forall2 same_or_falsy) t1 t2
  ∧ add_table_to_doc create_word t1 [w] [1; 3; 15]%Z
    = add_table_to_doc create_word t2 [w] [1; 3; 15]%Z
  ∧ ∃ doc' t row,
      add_table_to_doc create_word t1 [w] [1; 3; 15]%Z = Ok doc'
      ∧ doc' = append_block (append_block create_word (BTable t))
                 (BParagraph empty_paragraph)
      ∧ t_rows t !! 0 = Some row
      ∧ cells row !! 1 = cells row !! 0
      ∧ column_texts row !! 1 = column_texts row !! 0.
Proof.
  intros w t1 t2.
  assert (Forall2 (Forall2 same_or_falsy) t1 t2) as H.
  { repeat constructor; right; split; constructor. }
  destruct empty_string_cell_same_as_absent as [Hsame Hlayout].
  split; [exact H|].
  split; [exact (Hsame create_word t1 t2 [w] [1; 3; 15]%Z H)|].
  eexists.
  destruct (Hlayout create_word _
              [Some "v1"; Some EmptyString; None]%string [] [w]
              [1; 3; 15]%Z 0 1
              [Some "v1"; Some EmptyString; None]%string
              (Some EmptyString) eq_refl eq_refl)
    as (t & row & Hdoc & Hrow & Hcell & Htext).
  - simpl. lia.
  - reflexivity.
  - by right.
  - exists t, row. split; [reflexivity|].
    split; [exact Hdoc|]. split; [exact Hrow|].
    split; [exact Hcell | exact Htext].
Defined.

(** C4, as amended.  In every row of a rectangular grid with a width for
    each column, a present value starts a visual cell that shows its text;
    an absent value has no text of its own and lies in the visual cell of
    its left neighbour, which so spans one column more; an absent value in
    column 0 has no left neighbour and stays an empty cell of its own.  So
    the row [null, "A", null, "B"] gives an empty cell in column 0, "A"
    over columns 1-2 and "B" in column 3. *)
Theorem absent_cells_join_left_neighbour
  (doc : Document) (row0 : list (option string)) (rest : grid)
  (table_words : list word) (col_widths : list Z) :
  Forall (λ src, length src = length row0) rest →
  length row0 ≤ length col_widths →
  ∃ rows,
    add_table_to_doc doc (row0 :: rest) table_words col_widths
    = Ok (append_block
            (append_block doc
               (BTable {| t_style := Some "Table Grid"%string;
                          t_rows := rows |}))
            (BParagraph empty_paragraph))
    ∧ Forall2 (λ src row, cells row = covering src
                          ∧ column_texts row = shown_texts src)
              (row0 :: rest) rows.
Proof.
  intros Hrect Hcw. eexists. split.
  - apply add_table_to_doc_visual; [|done].
    eapply Forall_impl; [exact Hrect|]. simpl. intros src ->. done.
  - apply Forall2_map_diag.
    assert (Forall (λ src, length src = length row0) (row0 :: rest)) as Hall
      by by constructor.
    eapply Forall_impl; [exact Hall|]. simpl. intros src Hsrc.
    rewrite take_ge by lia.
    apply visual_row_layout. lia.
Qed.

Lemma absent_cells_join_left_neighbour_witness :
  let src := [None; Some "A"; None; Some "B"]%string in
  Forall (λ row : list (option string), length row = length src) []
  ∧ length src ≤ length [1; 3; 15; 2]%Z
  ∧ (∃ rows,
       add_table_to_doc create_word [src] ([] : list word) [1; 3; 15; 2]%Z
       = Ok (append_block
               (append_block create_word
                  (BTable {| t_style := Some "Table Grid"%string;
                             t_rows := rows |}))
               (BParagraph empty_paragraph))
       ∧ Forall2 (λ src row, cells row = covering src
                             ∧ column_texts row = shown_texts src)
                 [src] rows)
  ∧ covering src = [0; 1; 1; 2]
  ∧ shown_texts src = [EmptyString; "A"; "A"; "B"]%string.
Proof.
  intros src.
  assert (Forall (λ row : list (option string), length row = length src) [])
    as Hrect by constructor.
  assert (length src ≤ length [1; 3; 15; 2]%Z) as Hcw by (simpl; lia).
  split; [exact Hrect|]. split; [exact Hcw|].
  split; [|split; reflexivity].
  exact (absent_cells_join_left_neighbour create_word src [] ([] : list word)
           [1; 3; 15; 2]%Z Hrect Hcw).
Defined.

(** C4 as stated fails on its own example: whatever the widths, the row
    [null, "A", null, "B"] is never laid out with "A" over columns 0-1 and
    "B" over columns 2-3. *)
Lemma example_row_not_A01_B23 :
  ¬ ∃ doc (table_words : list word) col_widths row,
      add_table_to_doc doc [[None; Some "A"; None; Some "B"]]%string
        table_words col_widths
      = Ok (append_block
              (append_block doc
                 (BTable {| t_style := Some "Table Grid"%string;
                            t_rows := [row] |}))
              (BParagraph empty_paragraph))
      ∧ cells row = [0; 0; 1; 1]
      ∧ column_texts row = ["A"; "A"; "B"; "B"]%string.
Proof.
  intros (doc & table_words & col_widths & row & Hrun & Hcells & _).
  destruct (decide (length col_widths < 4)) as [Hlt|Hge].
  - rewrite add_table_to_doc_too_few_widths in Hrun by (simpl; lia). done.
  - rewrite add_table_to_doc_visual in Hrun by (simpl; first [done | lia]).
    apply (f_equal (λ res, match res with
                           | Ok d => body d
                           | Raise _ => []
                           end)) in Hrun.
    simpl in Hrun.
    apply app_inj_tail in Hrun as [Hrun _].
    apply app_inj_tail in Hrun as [_ Hrun].
    injection Hrun as Hrow.
    apply (f_equal cells) in Hrow.
    assert (length [None; Some "A"; None; Some "B"]%string
            ≤ length col_widths) as Hlen by (simpl; lia).
    rewrite (proj1 (visual_row_layout table_words _ _ Hlen)) in Hrow.
    rewrite Hcells in Hrow. vm_compute in Hrow. discriminate.
Qed.
